(** * The snapshot broadcast hub of [modules/http.py]

    A shallow embedding of the websocket side of [modules/http.py] (the
    [WebsocketHandler] class, the [producer_handler] broadcast loop, the
    [consumer_handler] read loop and [send]) and of the Flask pull
    endpoints, followed by the properties of the hub.

    Conventions of the embedding.
    - A Python list is a Rocq list in the same order: [append x] is
      [l ++ [x]], [pop()] takes the LAST element.
    - The client set is a [gset]; a [for] loop over it visits
      [elements], whose order no statement below relies on.
    - Code that can raise lives in a state-and-exception monad [M] over
      the module-level singleton [websocket_handler] and a log of the
      frames that were successfully written to sockets.
    - The collaborators imported from other modules ([trainer],
      [total_stats], [context], [get_items], ...) and the sockets are
      the fields of a [World]: each call either returns a value or
      raises.
    - The broadcast loop is suspended at each of its writes; what the
      read loops of the connections do meanwhile is given by a
      [schedule]. [producer_tick] is a round with the empty schedule.
      Other threads, and what other tasks do to the update queue, are
      not modelled. *)

From Stdlib Require Import Ascii String.
From stdpp Require Import gmap strings list.
From Equations Require Import Equations.

Open Scope string_scope.
Open Scope list_scope.

(** ** Values *)

(** JSON-serialisable Python values, as the providers return them. *)
#[local] Unset Elimination Schemes.
Inductive json : Type :=
| JNull
| JBool (b : bool)
| JNum (z : Z)
| JStr (s : string)
| JArr (l : list json)
| JObj (l : list (string * json)).
#[local] Set Elimination Schemes.

(** A Python [dict] with string keys, in insertion order. *)
Definition dict : Type := list (string * json).

(** [d[k] = v]: overwrite in place when the key exists, else add last. *)
Fixpoint dict_set (k : string) (v : json) (d : dict) : dict :=
  match d with
  | [] => [(k, v)]
  | (k', v') :: d' =>
      if String.eqb k k' then (k, v) :: d' else (k', v') :: dict_set k v d'
  end.

(** The text [json.dumps({"type": t, "data": d})], kept as the pair it
    serialises. *)
Record Frame : Type := mkFrame { ftype : string; fdata : json }.

(** What the [updates] list holds: a frame (a Python [str]) or [None]. *)
Definition entry : Type := option Frame.

(** The exceptions that occur. All are subclasses of [Exception],
    except [CancelledError], which derives from [BaseException]. *)
Inductive exn : Type :=
| ConnectionClosed    (* websockets.ConnectionClosed and its subclasses *)
| AttributeError
| KeyError
| RuntimeError        (* "Set changed size during iteration" *)
| CancelledError      (* asyncio.CancelledError *)
| OtherError (name : string).   (* any other subclass of Exception *)

(** What [except Exception] catches. *)
Definition is_Exception (e : exn) : bool :=
  match e with
  | CancelledError => false
  | _ => true
  end.

(** The outcome of a call: [inl e] when it raised [e]. *)
Definition res (A : Type) : Type := exn + A.

Definition res_bind {A B} (r : res A) (k : A -> res B) : res B :=
  match r with
  | inl e => inl e
  | inr a => k a
  end.

(** A list comprehension whose element expression can raise. *)
Fixpoint res_all {A} (l : list (res A)) : res (list A) :=
  match l with
  | [] => inr []
  | r :: l' =>
      res_bind r (fun a => res_bind (res_all l') (fun al => inr (a :: al)))
  end.

(** An open websocket connection, as an opaque handle. *)
Definition client : Type := nat.

(** ** The external collaborators *)

Record World : Type := mkWorld {
  (* modules.trainer / modules.memory *)
  trainer_to_dict : res dict;
  get_game_state_name : res string;
  (* modules.stats *)
  total_stats_get_encounter_log : res json;
  total_stats_get_shiny_log : res json;
  total_stats_get_encounter_rate : res json;
  total_stats_get_total_stats : res json;
  (* modules.items, modules.pokemon: the party members' to_dict() *)
  get_items : res json;
  get_party : res (list (res json));
  (* flask.request.args.get("flag"), modules.game, modules.memory *)
  request_args_get_flag : res (option string);
  event_flags : list string;
  get_event_flag : string -> res json;
  (* modules.context *)
  context_emulator_is_None : bool;
  context_to_dict : res json;
  fps_history : res (list json);
  context_emulation_speed : json;
  context_video : json;
  context_audio : json;
  context_bot_mode : json;
  context_message : json;
  emulator_get_frame_count : res json;
  emulator_get_current_fps : res json;
  emulator_get_current_time_spent_in_bot_fraction : res json;
  context_profile_path_name : json;
  context_rom_game_title : json;
  context_rom_game_name : json;
  context_rom_language_str : res json;
  context_rom_revision : json;
  (* websocket.send(message) on the connection of a client; what a
     write does depends on the connection and on the message only *)
  websocket_send : client -> entry -> res unit
}.

(** ** State *)

Record WebsocketHandler : Type := mkHandler {
  updates : list entry;
  clients : gset client
}.

(** The module-level singleton together with the frames written so far,
    oldest first. *)
Record Sys : Type := mkSys {
  websocket_handler : WebsocketHandler;
  wire : list (client * entry)
}.

Definition set_updates (u : list entry) (s : Sys) : Sys :=
  mkSys (mkHandler u (clients (websocket_handler s))) (wire s).

Definition set_clients (c : gset client) (s : Sys) : Sys :=
  mkSys (mkHandler (updates (websocket_handler s)) c) (wire s).

Definition log_write (c : client) (m : entry) (s : Sys) : Sys :=
  mkSys (websocket_handler s) (wire s ++ [(c, m)]).

(** ** The monad *)

Definition M (A : Type) : Type := Sys -> res A * Sys.

Definition ret {A} (a : A) : M A := fun s => (inr a, s).

Definition raise {A} (e : exn) : M A := fun s => (inl e, s).

Definition bind {A B} (m : M A) (k : A -> M B) : M B :=
  fun s =>
    match m s with
    | (inl e, s') => (inl e, s')
    | (inr a, s') => k a s'
    end.

Definition lift {A} (r : res A) : M A := fun s => (r, s).

Definition get_sys : M Sys := fun s => (inr s, s).

Definition modify (f : Sys -> Sys) : M unit := fun s => (inr tt, f s).

(** [try: body  except Exception as e: handler(e)] *)
Definition try_except {A} (body : M A) (handler : exn -> M A) : M A :=
  fun s =>
    match body s with
    | (inl e, s') => handler e s'
    | (inr a, s') => (inr a, s')
    end.

(** [try: body  finally: fin]: [fin] always runs; what it raises wins. *)
Definition try_finally {A} (body : M A) (fin : M unit) : M A :=
  fun s =>
    match body s with
    | (r, s') =>
        match fin s' with
        | (inl e, s'') => (inl e, s'')
        | (inr _, s'') => (r, s'')
        end
    end.

Declare Scope hub_scope.
Delimit Scope hub_scope with hub.
Notation "'let*' x ':=' c1 'in' c2" := (bind c1 (fun x => c2))
  (at level 10, x name, c1 at level 100, c2 at level 200) : hub_scope.
Notation "c1 ';;' c2" := (bind c1 (fun _ => c2))
  (at level 100, c2 at level 200, right associativity) : hub_scope.
Open Scope hub_scope.

(** [for x in xs: body(x)] *)
Fixpoint for_each {A} (xs : list A) (body : A -> M unit) : M unit :=
  match xs with
  | [] => ret tt
  | x :: xs' => body x ;; for_each xs' body
  end.

(** ** Python primitives *)

(** [list.pop()]: the last element and the list without it; [None]
    stands for the [IndexError] on an empty list. *)
Fixpoint pop {A} (l : list A) : option (A * list A) :=
  match l with
  | [] => None
  | x :: l' =>
      match pop l' with
      | None => Some (x, [])
      | Some (y, r) => Some (y, x :: r)
      end
  end.

(** [str.lower()] on byte strings: the letters A-Z are the only bytes
    with a lower-case form. *)
Definition lower_ascii (c : ascii) : ascii :=
  let n := nat_of_ascii c in
  if (65 <=? n)%nat && (n <=? 90)%nat then ascii_of_nat (n + 32) else c.

Fixpoint lower (s : string) : string :=
  match s with
  | EmptyString => EmptyString
  | String c s' => String (lower_ascii c) (lower s')
  end.

(** A [case "a" | "b" | ...] pattern of string literals. *)
Definition case_of (subject : string) (alternatives : list string) : bool :=
  existsb (String.eqb subject) alternatives.

(** A string used as a condition: [None] and [""] are false. *)
Definition truthy (o : option string) : bool :=
  match o with
  | None => false
  | Some s => negb (String.eqb s "")
  end.

Definition inspect {A} (a : A) : {b : A | a = b} := exist _ a eq_refl.

(** ** The other tasks of the event loop *)

(** What a read loop does while another task is suspended: a new
    connection registers ([Connect]), or the read loop of a connection
    gets what its [recv()] returns or raises ([Inbound]). *)
Inductive event : Type :=
| Connect (c : client)
| Inbound (c : client) (received : res string).

(** The tasks that run while the broadcast loop is suspended at one
    [await]: those that run before the awaited write and those that run
    after it. *)
Record await_point : Type := mkAwait {
  before_write : list event;
  after_write : list event
}.

Definition quiet_point : await_point := mkAwait [] [].

(** What happens at the successive awaits of a round of the broadcast
    loop; past the end of the list nothing happens. *)
Definition schedule : Type := list await_point.

(** ** [WebsocketHandler] and the two servers *)

Section Hub.

Variable w : World.

Definition prep_data (data : json) (type : string) : Frame :=
  mkFrame type data.

Definition get_trainer : M Frame :=
  let* data := lift (trainer_to_dict w) in
  let* name := lift (get_game_state_name w) in
  let data := dict_set "game_state" (JStr name) data in
  ret (prep_data (JObj data) "trainer").

Definition get_encounter_log : M Frame :=
  let* log := lift (total_stats_get_encounter_log w) in
  ret (prep_data log "encounter_log").

Definition get_items_frame : M Frame :=
  let* items := lift (get_items w) in
  ret (prep_data items "items").

Definition get_party_frame : M Frame :=
  let* party := lift (get_party w) in
  let* dicts := lift (res_all party) in
  ret (prep_data (JArr dicts) "party").

Definition get_shiny_log : M Frame :=
  let* log := lift (total_stats_get_shiny_log w) in
  ret (prep_data log "shiny_log").

Definition get_encounter_rate : M Frame :=
  let* rate := lift (total_stats_get_encounter_rate w) in
  ret (prep_data (JObj [("encounter_rate", rate)]) "encounter_rate").

Definition get_stats : M Frame :=
  let* stats := lift (total_stats_get_total_stats w) in
  ret (prep_data stats "stats").

(** [for flag in _event_flags: result[flag] = get_event_flag(flag)] *)
Fixpoint collect_event_flags (flags : list string) (result : dict)
  : res dict :=
  match flags with
  | [] => inr result
  | flag :: flags' =>
      res_bind (get_event_flag w flag)
        (fun v => collect_event_flags flags' (dict_set flag v result))
  end.

Definition get_event_flags : M Frame :=
  let* flag := lift (request_args_get_flag w) in
  let all_flags :=
    let* result := lift (collect_event_flags (event_flags w) []) in
    ret (prep_data (JObj result) "flags") in
  match flag with
  | Some f =>
      if truthy flag && existsb (String.eqb f) (event_flags w) then
        let* v := lift (get_event_flag w f) in
        ret (prep_data (JObj [(f, v)]) "flags")
      else all_flags
  | None => all_flags
  end.

Definition get_emulator : M Frame :=
  if context_emulator_is_None w then ret (prep_data JNull "emulator")
  else
    let* d := lift (context_to_dict w) in
    ret (prep_data d "emulator").

Definition get_fps : M Frame :=
  if context_emulator_is_None w then ret (prep_data JNull "fps")
  else
    let* h := lift (fps_history w) in
    ret (prep_data (JArr (rev h)) "fps").

(** [self.updates.append(x)] *)
Definition updates_append (x : entry) : M unit :=
  modify (fun s => set_updates (updates (websocket_handler s) ++ [x]) s).

Definition add_update (type : string) : M unit :=
  if String.eqb type "encounter_log" then
    let* f := get_encounter_log in updates_append (Some f)
  else if String.eqb type "encounter_rate" then
    let* f := get_encounter_rate in updates_append (Some f)
  else if String.eqb type "emulator" then
    let* f := get_emulator in updates_append (Some f)
  else if String.eqb type "party" then
    let* f := get_party_frame in updates_append (Some f)
  else if String.eqb type "fps" then
    let* f := get_fps in updates_append (Some f)
  else if String.eqb type "event_flags" then
    let* f := get_event_flags in updates_append (Some f)
  else if String.eqb type "items" then
    let* f := get_items_frame in updates_append (Some f)
  else if String.eqb type "shiny" then
    let* f := get_shiny_log in updates_append (Some f)
  else if String.eqb type "stats" then
    let* f := get_stats in updates_append (Some f)
  else if String.eqb type "trainer" then
    let* f := get_trainer in updates_append (Some f)
  else
    updates_append None.

(** The loop of [get_updates]:
    [while self.updates: updates_list.append(self.updates.pop())]. *)
Equations? get_updates_loop (updates_list : list entry) (s : Sys)
  : res (list entry) * Sys
  by wf (length (updates (websocket_handler s))) lt :=
  get_updates_loop updates_list s
    with inspect (pop (updates (websocket_handler s))) := {
    | exist _ None _ => (inr updates_list, s)
    | exist _ (Some (x, rest)) _ =>
        get_updates_loop (updates_list ++ [x]) (set_updates rest s) }.
Proof.
  simpl. clear get_updates_loop.
  revert x rest e. induction (updates (websocket_handler s)) as [|y l IH];
    simpl; intros x rest; [discriminate|].
  destruct (pop l) as [[z r]|] eqn:E; intros [= <- <-]; simpl.
  - specialize (IH _ _ eq_refl). lia.
  - lia.
Qed.

Definition get_updates : M (list entry) := get_updates_loop [].

Definition add_client (websocket : client) : M unit :=
  modify (fun s => set_clients ({[websocket]} ∪ clients (websocket_handler s)) s).

(** [set.remove] raises [KeyError] when the element is absent. *)
Definition remove_client (websocket : client) : M unit :=
  let* s := get_sys in
  if decide (websocket ∈ clients (websocket_handler s))
  then modify (set_clients (clients (websocket_handler s) ∖ {[websocket]}))
  else raise KeyError.

Definition get_clients : M (gset client) :=
  let* s := get_sys in ret (clients (websocket_handler s)).

(** *** The websocket server *)

(** [await websocket.send(message)]: the write reaches the wire unless
    the socket raises. *)
Definition websocket_send_msg (websocket : client) (message : entry)
  : M unit :=
  lift (websocket_send w websocket message) ;;
  modify (log_write websocket message).

Definition send (websocket : client) (message : entry) : M unit :=
  try_except (websocket_send_msg websocket message)
    (fun e =>
       match e with
       | ConnectionClosed => ret tt
       | _ => raise e
       end).

(** The names an instance of [WebsocketHandler] answers to. *)
Definition handler_attributes : list string :=
  ["updates"; "clients"; "add_update"; "get_updates"; "add_client";
   "remove_client"; "get_clients"; "get_trainer"; "get_encounter_log";
   "get_items"; "get_party"; "get_shiny_log"; "get_encounter_rate";
   "get_stats"; "get_event_flags"; "get_emulator"; "get_fps"].

(** [websocket_handler.<name>]: attribute lookup on the instance. *)
Definition handler_getattr (name : string) : M unit :=
  if existsb (String.eqb name) handler_attributes then ret tt
  else raise AttributeError.

(** The body of the [while True] of [consumer_handler], given what
    [websocket.recv()] returned. *)
Definition consumer_step (websocket : client) (received : string)
  : M unit :=
  let message := lower received in
  if case_of message ["trainer"; "tr"] then
    let* f := get_trainer in websocket_send_msg websocket (Some f)
  else if case_of message ["encounter_log"; "el"; "enc log"] then
    let* f := get_encounter_log in websocket_send_msg websocket (Some f)
  else if case_of message ["items"; "it"; "bag"; "bg"] then
    let* f := get_items_frame in websocket_send_msg websocket (Some f)
  else if case_of message ["emulator"; "em"; "emu"] then
    let* f := get_emulator in websocket_send_msg websocket (Some f)
  else if case_of message ["party"; "pa"] then
    let* f := get_party_frame in websocket_send_msg websocket (Some f)
  else if case_of message ["shiny"; "sh"; "shy"] then
    let* f := get_shiny_log in websocket_send_msg websocket (Some f)
  else if case_of message ["stats"; "st"] then
    let* f := get_stats in websocket_send_msg websocket (Some f)
  else if case_of message ["encounter_rate"; "er"; "enc rate"] then
    let* f := get_encounter_rate in websocket_send_msg websocket (Some f)
  else if case_of message ["fps"] then
    let* f := get_fps in websocket_send_msg websocket (Some f)
  else if case_of message ["flags"; "event_flags"; "ef"; "ev fl"; "fl"] then
    let* f := get_event_flags in websocket_send_msg websocket (Some f)
  else
    handler_getattr "prep_data" ;;
    websocket_send_msg websocket
      (Some (prep_data (JStr ("unknown message: " ++ message)%string) "unknown")).

(** The [while True] of [consumer_handler] on a connection whose
    [recv()] returns the strings of [inbound] in turn and then raises
    [closing]. *)
Fixpoint consumer_loop (websocket : client) (inbound : list string)
  (closing : exn) : M unit :=
  match inbound with
  | [] => raise closing
  | received :: inbound' =>
      consumer_step websocket received ;;
      consumer_loop websocket inbound' closing
  end.

Definition consumer_handler (websocket : client) (inbound : list string)
  (closing : exn) : M unit :=
  add_client websocket ;;
  try_finally
    (try_except (consumer_loop websocket inbound closing)
       (fun e => if is_Exception e then ret tt else raise e))
    (remove_client websocket).

(** **** The broadcast loop among the other tasks

    [producer_handler] is suspended at every
    [await asyncio.create_task(send(client, message))]; until it is
    resumed the other tasks of the event loop run. Those that touch
    [websocket_handler] are the read loops of the connections. *)

(** What the read loop of a connection does between two awaits. *)
Definition run_event (ev : event) (s : Sys) : Sys :=
  match ev with
  | Connect c =>
      (* a new connection: [consumer_handler] starts *)
      snd (add_client c s)
  | Inbound c received =>
      (* one turn of the [while True] of a read loop that is running;
         a turn that raises leaves the loop through the [finally] *)
      if decide (c ∈ clients (websocket_handler s)) then
        match (let* message := lift received in
               consumer_step c message) s with
        | (inr _, s') => s'
        | (inl _, s') => snd (remove_client c s')
        end
      else s
  end.

Definition run_events (evs : list event) (s : Sys) : Sys :=
  fold_left (fun s ev => run_event ev s) evs s.

(** [for client in websocket_handler.get_clients(): await ...] on the
    live set. Each call of the iterator's [next] first compares the
    size of the set with its size when the iterator was made
    ([si_used]) and raises [RuntimeError] when they differ; then it
    moves on to the next member that is still in the table. [rest] is
    the order in which the table holds the members not yet met; the
    first await point of [sched] is the one of this turn. When members
    were exchanged without a change of size, which of the new members
    the iterator still meets depends on the layout of the table: here
    it meets none of them. *)
Fixpoint set_iter (message : entry) (si_used : nat) (rest : list client)
  (sched : schedule) {struct rest} : M schedule :=
  fun s =>
    if negb (Nat.eqb (size (clients (websocket_handler s))) si_used)
    then (inl RuntimeError, s)
    else
      match rest with
      | [] => (inr sched, s)
      | client :: rest' =>
          if decide (client ∈ clients (websocket_handler s)) then
            let point := hd quiet_point sched in
            match send client message (run_events (before_write point) s) with
            | (inl e, s') => (inl e, s')
            | (inr _, s') =>
                set_iter message si_used rest' (tl sched)
                  (run_events (after_write point) s')
            end
          else set_iter message si_used rest' sched s
      end.

(** The inner loop of [producer_handler]: [while messages: ...]. *)
Equations? producer_loop (sched : schedule) (messages : list entry)
  : M unit by wf (length messages) lt :=
  producer_loop sched messages with inspect (pop messages) := {
    | exist _ None _ => ret tt
    | exist _ (Some (message, rest)) _ =>
        let* sched' :=
          (match message with
           | Some _ =>
               let* cs := get_clients in
               set_iter message (size cs) (elements cs) sched
           | None => ret sched
           end) in
        producer_loop sched' rest }.
Proof.
  clear producer_loop.
  revert message rest e. induction messages as [|y l IH];
    simpl; intros x rest; [discriminate|].
  destruct (pop l) as [[z r]|] eqn:E; intros [= <- <-]; simpl.
  - specialize (IH _ _ eq_refl). lia.
  - lia.
Qed.

(** One round of the [while True] of [producer_handler], after the
    sleep, with what the other tasks do at its awaits. *)
Definition producer_tick_live (sched : schedule) : M unit :=
  let* messages := get_updates in
  producer_loop sched messages.

(** A round during whose awaits no other task runs. *)
Definition producer_tick : M unit := producer_tick_live [].

(** *** The HTTP server *)

Definition http_get_trainer : M json :=
  let* data := lift (trainer_to_dict w) in
  let* name := lift (get_game_state_name w) in
  let data := dict_set "game_state" (JStr name) data in
  ret (JObj data).

Definition http_get_bag : M json := lift (get_items w).

Definition http_get_party : M json :=
  let* party := lift (get_party w) in
  let* dicts := lift (res_all party) in
  ret (JArr dicts).

Definition http_get_encounter_log : M json :=
  lift (total_stats_get_encounter_log w).

Definition http_get_shiny_log : M json :=
  lift (total_stats_get_shiny_log w).

Definition http_get_encounter_rate : M json :=
  let* rate := lift (total_stats_get_encounter_rate w) in
  ret (JObj [("encounter_rate", rate)]).

Definition http_get_stats : M json :=
  lift (total_stats_get_total_stats w).

Definition http_get_event_flags : M json :=
  let* flag := lift (request_args_get_flag w) in
  let all_flags :=
    let* result := lift (collect_event_flags (event_flags w) []) in
    ret (JObj result) in
  match flag with
  | Some f =>
      if truthy flag && existsb (String.eqb f) (event_flags w) then
        let* v := lift (get_event_flag w f) in
        ret (JObj [(f, v)])
      else all_flags
  | None => all_flags
  end.

Definition http_get_emulator : M json :=
  if context_emulator_is_None w then ret JNull
  else
    let* frame_count := lift (emulator_get_frame_count w) in
    let* current_fps := lift (emulator_get_current_fps w) in
    let* fraction :=
      lift (emulator_get_current_time_spent_in_bot_fraction w) in
    let* language := lift (context_rom_language_str w) in
    ret (JObj
      [("emulation_speed", context_emulation_speed w);
       ("video_enabled", context_video w);
       ("audio_enabled", context_audio w);
       ("bot_mode", context_bot_mode w);
       ("current_message", context_message w);
       ("frame_count", frame_count);
       ("current_fps", current_fps);
       ("current_time_spent_in_bot_fraction", fraction);
       ("profile", JObj [("name", context_profile_path_name w)]);
       ("game", JObj
          [("title", context_rom_game_title w);
           ("name", context_rom_game_name w);
           ("language", language);
           ("revision", context_rom_revision w)])]).

Definition http_get_fps : M json :=
  if context_emulator_is_None w then ret JNull
  else
    let* h := lift (fps_history w) in
    ret (JArr (rev h)).

End Hub.

(** *** The route listing of the HTTP server *)

(** [d[k]] and [d.get(k)]: the value under [k], if any. *)
Fixpoint dict_get (k : string) (d : dict) : option json :=
  match d with
  | [] => None
  | (k', v) :: d' => if String.eqb k k' then Some v else dict_get k d'
  end.

(** [d.pop(k)]: the value under [k] and the dict without the key;
    [KeyError] when the key is absent. *)
Fixpoint dict_pop (k : string) (d : dict) : res (json * dict) :=
  match d with
  | [] => inl KeyError
  | (k', v) :: d' =>
      if String.eqb k k' then inr (v, d')
      else res_bind (dict_pop k d') (fun r => inr (fst r, (k', v) :: snd r))
  end.

(** [d[k][k2] = v]: the dict stored under [k] is updated in place. *)
Definition dict_set_in (k k2 : string) (v : json) (d : dict) : res dict :=
  match dict_get k d with
  | Some (JObj inner) => inr (dict_set k (JObj (dict_set k2 v inner)) d)
  | Some _ => inl (OtherError "TypeError")
  | None => inl KeyError
  end.

(** A rule of Flask's [url_map]: its path, the name of the view function
    and the methods it allows, in the order in which [list(route.methods)]
    yields them. *)
Record Rule : Type := mkRule {
  rule : string;
  endpoint : string;
  methods : list string
}.

(** The loop of [http_get_routes] over [server.url_map._rules]. *)
Fixpoint collect_routes (rules : list Rule) (routes : dict) : res dict :=
  match rules with
  | [] => inr routes
  | route :: rules' =>
      let routes := dict_set (rule route) (JObj []) routes in
      res_bind
        (dict_set_in (rule route) "functionName" (JStr (endpoint route))
           routes)
        (fun routes =>
           res_bind
             (dict_set_in (rule route) "methods"
                (JArr (map JStr (methods route))) routes)
             (fun routes => collect_routes rules' routes))
  end.

Definition static_rule : string := "/static/<path:filename>".

(** [http_get_routes], given the rules of [server.url_map]. The JSON
    object that [jsonify(routes)] answers is kept as a finite map from
    path to entry: nothing is said about the order in which the response
    lists its keys (Flask writes them sorted). *)
Definition http_get_routes (url_map_rules : list Rule)
  : M (gmap string json) :=
  let* routes := lift (collect_routes url_map_rules []) in
  let* popped := lift (dict_pop static_rule routes) in
  ret (list_to_map (snd popped)).

(** * Notions used in the statements *)

(** ** The broadcast, write by write *)

(** What [producer_handler] does with one drained entry, among the
    other tasks. *)
Definition fan_out_live (w : World) (message : entry) (sched : schedule)
  : M schedule :=
  match message with
  | Some _ =>
      let* cs := get_clients in
      set_iter w message (size cs) (elements cs) sched
  | None => ret sched
  end.

(** What [producer_handler] does with one drained entry when no other
    task runs at its awaits. *)
Definition fan_out (w : World) (message : entry) : M unit :=
  match message with
  | Some _ =>
      let* cs := get_clients in
      for_each (elements cs) (fun client => send w client message)
  | None => ret tt
  end.

(** The socket of [c] takes [m]. *)
Definition accepts (w : World) (c : client) (m : entry) : bool :=
  match websocket_send w c m with
  | inr _ => true
  | inl _ => false
  end.

(** The outcome of a write is one that [send] absorbs. *)
Definition absorbed (r : res unit) : bool :=
  match r with
  | inr _ | inl ConnectionClosed => true
  | inl _ => false
  end.

(** Every write that the tick from [s] can attempt either succeeds or
    raises [ConnectionClosed]. *)
Definition only_closures (w : World) (s : Sys) : bool :=
  forallb
    (fun m =>
       match m with
       | Some _ =>
           forallb (fun c => absorbed (websocket_send w c m))
             (elements (clients (websocket_handler s)))
       | None => true
       end)
    (updates (websocket_handler s)).

(** [message != None] *)
Definition is_frame (m : entry) : bool :=
  match m with
  | Some _ => true
  | None => false
  end.

(** The frames written to [c], oldest first. *)
Definition received (c : client) (tr : list (client * entry))
  : list entry :=
  map snd (List.filter (fun p => Nat.eqb (fst p) c) tr).

(** The queued entries that a tick writes to [c]. *)
Definition deliverable (w : World) (c : client) (q : list entry)
  : list entry :=
  List.filter (fun m => is_frame m && accepts w c m) q.

(** The writes of one fan-out over the clients [cs], in order. *)
Definition accepted (w : World) (m : entry) (cs : list client)
  : list (client * entry) :=
  map (fun c => (c, m)) (List.filter (fun c => accepts w c m) cs).

Definition add_wire (tr : list (client * entry)) (s : Sys) : Sys :=
  mkSys (websocket_handler s) (wire s ++ tr).

(** The writes of a whole tick that only meets closed connections. *)
Definition tick_writes (w : World) (cs : list client) (q : list entry)
  : list (client * entry) :=
  concat (map (fun m =>
                 match m with
                 | Some _ => accepted w m cs
                 | None => []
                 end) q).

(** The frames that a step of the read loop of [c] writes. *)
Definition replies (w : World) (c : client) (command : string) (s : Sys)
  : list entry :=
  drop (length (received c (wire s)))
    (received c (wire (snd (consumer_step w c command s)))).

(** ** An explicit FIFO buffer *)

(** The hub as section 4 of the specification words it: [drainAll]
    hands the queued messages out oldest first and leaves the queue
    empty, and the loop serves them from the front, with the same
    fan-out per entry as the code. *)
Definition drainAll : M (list entry) :=
  fun s => (inr (updates (websocket_handler s)), set_updates [] s).

Fixpoint fifo_broadcast (w : World) (messages : list entry) : M unit :=
  match messages with
  | [] => ret tt
  | message :: rest => fan_out w message ;; fifo_broadcast w rest
  end.

Definition fifo_tick (w : World) : M unit :=
  let* messages := drainAll in
  fifo_broadcast w messages.

(** ** Sample worlds and states *)

(** A world in which every collaborator answers and every socket takes
    every frame. *)
Definition calm_world : World := {|
  trainer_to_dict := inr [("name", JStr "Red")];
  get_game_state_name := inr "OVERWORLD";
  total_stats_get_encounter_log := inr (JArr []);
  total_stats_get_shiny_log := inr (JArr []);
  total_stats_get_encounter_rate := inr (JNum 120);
  total_stats_get_total_stats := inr (JObj []);
  get_items := inr (JObj []);
  get_party := inr [inr (JStr "Torchic")];
  request_args_get_flag := inr None;
  event_flags := ["SYS_POKEDEX_GET"];
  get_event_flag := fun _ => inr (JBool true);
  context_emulator_is_None := true;
  context_to_dict := inr JNull;
  fps_history := inr [];
  context_emulation_speed := JNum 1;
  context_video := JBool true;
  context_audio := JBool true;
  context_bot_mode := JStr "manual";
  context_message := JStr "";
  emulator_get_frame_count := inr (JNum 0);
  emulator_get_current_fps := inr (JNum 60);
  emulator_get_current_time_spent_in_bot_fraction := inr (JNum 0);
  context_profile_path_name := JStr "profile";
  context_rom_game_title := JStr "POKEMON EMER";
  context_rom_game_name := JStr "Emerald";
  context_rom_language_str := inr (JStr "E");
  context_rom_revision := JNum 0;
  websocket_send := fun _ _ => inr tt
|}.

(** [calm_world] with other sockets. *)
Definition with_sockets (send : client -> entry -> res unit) (w : World)
  : World :=
  mkWorld (trainer_to_dict w) (get_game_state_name w)
    (total_stats_get_encounter_log w) (total_stats_get_shiny_log w)
    (total_stats_get_encounter_rate w) (total_stats_get_total_stats w)
    (get_items w) (get_party w) (request_args_get_flag w) (event_flags w)
    (get_event_flag w) (context_emulator_is_None w) (context_to_dict w)
    (fps_history w) (context_emulation_speed w) (context_video w)
    (context_audio w) (context_bot_mode w) (context_message w)
    (emulator_get_frame_count w) (emulator_get_current_fps w)
    (emulator_get_current_time_spent_in_bot_fraction w)
    (context_profile_path_name w) (context_rom_game_title w)
    (context_rom_game_name w) (context_rom_language_str w)
    (context_rom_revision w) send.

Definition with_trainer (t : res dict) (w : World) : World :=
  mkWorld t (get_game_state_name w)
    (total_stats_get_encounter_log w) (total_stats_get_shiny_log w)
    (total_stats_get_encounter_rate w) (total_stats_get_total_stats w)
    (get_items w) (get_party w) (request_args_get_flag w) (event_flags w)
    (get_event_flag w) (context_emulator_is_None w) (context_to_dict w)
    (fps_history w) (context_emulation_speed w) (context_video w)
    (context_audio w) (context_bot_mode w) (context_message w)
    (emulator_get_frame_count w) (emulator_get_current_fps w)
    (emulator_get_current_time_spent_in_bot_fraction w)
    (context_profile_path_name w) (context_rom_game_title w)
    (context_rom_game_name w) (context_rom_language_str w)
    (context_rom_revision w) (websocket_send w).

(** The connection of client 2 is closed; those of the others work. *)
Definition world_2_closed : World :=
  with_sockets
    (fun c _ => if Nat.eqb c 2 then inl ConnectionClosed else inr tt)
    calm_world.

(** Writing to client 2 times out; the other sockets work. *)
Definition world_2_timeout : World :=
  with_sockets
    (fun c _ => if Nat.eqb c 2 then inl (OtherError "TimeoutError")
                else inr tt)
    calm_world.

(** [trainer.to_dict()] raises. *)
Definition world_trainer_fails : World :=
  with_trainer (inl (OtherError "RuntimeError")) calm_world.

Definition fresh : Sys := mkSys (mkHandler [] ∅) [].

Definition frame_a : Frame := mkFrame "stats" (JNum 1).
Definition frame_b : Frame := mkFrame "fps" JNull.

(** Three clients and two queued frames. *)
Definition three_clients : Sys :=
  mkSys (mkHandler [Some frame_a; Some frame_b] {[1; 2; 3]}) [].

(** No emulator, and the context raises when asked. *)
Definition world_no_emulator : World :=
  mkWorld (trainer_to_dict calm_world) (get_game_state_name calm_world)
    (total_stats_get_encounter_log calm_world)
    (total_stats_get_shiny_log calm_world)
    (total_stats_get_encounter_rate calm_world)
    (total_stats_get_total_stats calm_world)
    (get_items calm_world) (get_party calm_world)
    (request_args_get_flag calm_world) (event_flags calm_world)
    (get_event_flag calm_world) true (inl (OtherError "AttributeError"))
    (inl (OtherError "AttributeError"))
    (context_emulation_speed calm_world) (context_video calm_world)
    (context_audio calm_world) (context_bot_mode calm_world)
    (context_message calm_world)
    (inl (OtherError "AttributeError")) (inl (OtherError "AttributeError"))
    (inl (OtherError "AttributeError"))
    (context_profile_path_name calm_world)
    (context_rom_game_title calm_world) (context_rom_game_name calm_world)
    (context_rom_language_str calm_world) (context_rom_revision calm_world)
    (websocket_send calm_world).

(** A world with another flag table and another request. *)
Definition with_flags (request : res (option string))
  (flags : list string) (read : string -> res json) (w : World) : World :=
  mkWorld (trainer_to_dict w) (get_game_state_name w)
    (total_stats_get_encounter_log w) (total_stats_get_shiny_log w)
    (total_stats_get_encounter_rate w) (total_stats_get_total_stats w)
    (get_items w) (get_party w) request flags read
    (context_emulator_is_None w) (context_to_dict w)
    (fps_history w) (context_emulation_speed w) (context_video w)
    (context_audio w) (context_bot_mode w) (context_message w)
    (emulator_get_frame_count w) (emulator_get_current_fps w)
    (emulator_get_current_time_spent_in_bot_fraction w)
    (context_profile_path_name w) (context_rom_game_title w)
    (context_rom_game_name w) (context_rom_language_str w)
    (context_rom_revision w) (websocket_send w).

(** Two flags, and a request that names a third one. *)
Definition world_two_flags : World :=
  with_flags (inr (Some "BADGE09_GET")) ["SYS_POKEDEX_GET"; "BADGE01_GET"]
    (fun f => if String.eqb f "BADGE01_GET" then inr (JBool false)
              else if String.eqb f "SYS_POKEDEX_GET" then inr (JBool true)
              else inl KeyError)
    calm_world.

(** Two flags of which the first cannot be read, and a request that
    names the second. *)
Definition world_flag_named : World :=
  with_flags (inr (Some "BADGE01_GET")) ["SYS_POKEDEX_GET"; "BADGE01_GET"]
    (fun f => if String.eqb f "BADGE01_GET" then inr (JBool false)
              else inl (OtherError "RuntimeError"))
    calm_world.

(** [trainer.to_dict()] already has a ["game_state"] key. *)
Definition world_trainer_with_state : World :=
  with_trainer
    (inr [("name", JStr "Red"); ("game_state", JStr "stale");
          ("id", JNum 7)])
    calm_world.

Definition sample_rules : list Rule :=
  [mkRule "/static/<path:filename>" "static" ["GET"; "HEAD"; "OPTIONS"];
   mkRule "/trainer" "http_get_trainer" ["GET"; "HEAD"; "OPTIONS"];
   mkRule "/" "http_get_routes" ["GET"; "HEAD"; "OPTIONS"]].

(** ** The two dispatches as tables *)

(** The [match] of [add_update], read as a table from name to
    producer. *)
Definition update_producers : list (string * (World -> M Frame)) :=
  [("encounter_log", get_encounter_log);
   ("encounter_rate", get_encounter_rate);
   ("emulator", get_emulator);
   ("party", get_party_frame);
   ("fps", get_fps);
   ("event_flags", get_event_flags);
   ("items", get_items_frame);
   ("shiny", get_shiny_log);
   ("stats", get_stats);
   ("trainer", get_trainer)].

(** The [match] of [consumer_handler], read as a table from names and
    aliases to producer. *)
Definition command_producers
  : list (list string * (World -> M Frame)) :=
  [(["trainer"; "tr"], get_trainer);
   (["encounter_log"; "el"; "enc log"], get_encounter_log);
   (["items"; "it"; "bag"; "bg"], get_items_frame);
   (["emulator"; "em"; "emu"], get_emulator);
   (["party"; "pa"], get_party_frame);
   (["shiny"; "sh"; "shy"], get_shiny_log);
   (["stats"; "st"], get_stats);
   (["encounter_rate"; "er"; "enc rate"], get_encounter_rate);
   (["fps"], get_fps);
   (["flags"; "event_flags"; "ef"; "ev fl"; "fl"], get_event_flags)].

(** The first row of a table one of whose keys is [name]. *)
Fixpoint find_producer (name : string)
  (table : list (list string * (World -> M Frame)))
  : option (World -> M Frame) :=
  match table with
  | [] => None
  | (keys, p) :: table' =>
      if case_of name keys then Some p else find_producer name table'
  end.

Definition update_producer (type : string) : option (World -> M Frame) :=
  find_producer type (map (fun row => ([fst row], snd row)) update_producers).

Definition command_producer (message : string)
  : option (World -> M Frame) :=
  find_producer message command_producers.

(** The names that [add_update] has a [case] for. *)
Definition recognised_updates : list string := map fst update_producers.

(** ** Calls that only read, and runs of calls *)

(** The result of a call from the fresh state. *)
Definition outcome {A} (m : M A) : res A := fst (m fresh).

(** A call that changes nothing and does not look at the state. *)
Definition reads_only {A} (m : M A) : Prop :=
  forall s, m s = (outcome m, s).

(** What [add_update(type)] appends in world [w], or the exception that
    its producer raises. *)
Definition snapshot (w : World) (type : string) : res entry :=
  match update_producer type with
  | Some p =>
      match outcome (p w) with
      | inr f => inr (Some f)
      | inl e => inl e
      end
  | None => inr None
  end.

(** A run of invalidations, each in the world of its instant. *)
Fixpoint enqueue_all (calls : list (World * string)) : M unit :=
  match calls with
  | [] => ret tt
  | (w, type) :: calls' => add_update w type ;; enqueue_all calls'
  end.

Definition snapshots (calls : list (World * string)) : res (list entry) :=
  res_all (map (fun call => snapshot (fst call) (snd call)) calls).

(** The registry after a connection came and went. *)
Definition came_and_went (c : client) (s : Sys) : Sys :=
  set_clients (({[c]} ∪ clients (websocket_handler s)) ∖ {[c]}) s.

(** ** Statements of the specification that the code does not meet *)

(** The claim as worded: whenever a write of a queued frame to a
    registered client fails, the tick still ends normally, that client
    is gone from the registry, and every other client has received every
    queued frame its socket takes. *)
Definition failed_write_unregisters (w : World) (s : Sys) : Prop :=
  forall (c : client) (m : entry) (e : exn),
    c ∈ clients (websocket_handler s) ->
    m ∈ updates (websocket_handler s) ->
    is_frame m = true ->
    websocket_send w c m = inl e ->
    exists s',
      producer_tick w s = (inr tt, s')
      /\ (c ∉ clients (websocket_handler s'))
      /\ forall c', c' ∈ clients (websocket_handler s) -> c' <> c ->
           received c' (wire s')
           = received c' (wire s)
             ++ deliverable w c' (updates (websocket_handler s)).

(** The claim as worded: after the invalidations of [calls] on an empty
    queue, [get_updates()] returns their entries first-in first-out. *)
Definition drains_in_enqueue_order (calls : list (World * string))
  : Prop :=
  forall entries,
    snapshots calls = inr entries ->
    fst ((enqueue_all calls ;; get_updates) fresh) = inr entries.

(** The claim as worded: the entry appended for an unrecognised name is
    a message whose data is null. *)
Definition unknown_enqueues_null_message (w : World) (type : string)
  (s : Sys) : Prop :=
  exists f : Frame,
    fdata f = JNull
    /\ add_update w type s
       = (inr tt,
          set_updates (updates (websocket_handler s) ++ [Some f]) s).

(** The claim as worded, for an invalidation: the failure of the
    producer of [type] is replaced by a queued message whose data is
    null. *)
Definition failure_becomes_null_message (w : World) (type : string)
  (s : Sys) : Prop :=
  forall p e,
    update_producer type = Some p ->
    outcome (p w) = inl e ->
    exists f : Frame,
      fdata f = JNull
      /\ add_update w type s
         = (inr tt,
            set_updates (updates (websocket_handler s) ++ [Some f]) s).

(** The claim as worded, for a command and the tick in progress: when
    the read loop of [c] gets [command] while the tick is suspended at
    its first write, every other registered client still receives every
    queued frame its socket takes. *)
Definition dispatch_failure_spares_tick (w : World) (c : client)
  (command : string) (s : Sys) : Prop :=
  forall c', c' ∈ clients (websocket_handler s) -> c' <> c ->
    received c'
      (wire (snd (producer_tick_live w
                    [mkAwait [Inbound c (inr command)] []] s)))
    = received c' (wire s)
      ++ deliverable w c' (updates (websocket_handler s)).

(** The claim as worded, first half: removing an absent client changes
    nothing and raises nothing. *)
Definition remove_absent_is_noop (c : client) (s : Sys) : Prop :=
  c ∉ clients (websocket_handler s) -> remove_client c s = (inr tt, s).

(** ** The read loop, command by command *)

Definition res_map {A B} (f : A -> B) (r : res A) : res B :=
  match r with
  | inl e => inl e
  | inr a => inr (f a)
  end.

(** The frame that the read loop computes for a command, or the
    exception that the branch raises before anything is sent. *)
Definition command_reply (w : World) (command : string) : res Frame :=
  match command_producer (lower command) with
  | Some p => outcome (p w)
  | None => inl AttributeError
  end.

(** The frames sent back to [c] for the commands of [inbound]: those of
    the commands before the first one whose branch or whose write
    raises. *)
Fixpoint answers (w : World) (c : client) (inbound : list string)
  : list Frame :=
  match inbound with
  | [] => []
  | command :: inbound' =>
      match command_reply w command with
      | inr f =>
          if accepts w c (Some f) then f :: answers w c inbound' else []
      | inl _ => []
      end
  end.

(** The exception that ends the read loop: the one of the first command
    whose branch or whose write raises, else the one that [recv()]
    raises in the end. *)
Fixpoint loop_exit (w : World) (c : client) (inbound : list string)
  (closing : exn) : exn :=
  match inbound with
  | [] => closing
  | command :: inbound' =>
      match command_reply w command with
      | inl e => e
      | inr f =>
          match websocket_send w c (Some f) with
          | inl e => e
          | inr _ => loop_exit w c inbound' closing
          end
      end
  end.

(** The entry of the route listing for one rule. *)
Definition route_entry (route : Rule) : string * json :=
  (rule route,
   JObj [("functionName", JStr (endpoint route));
         ("methods", JArr (map JStr (methods route)))]).

(** The writes of a read loop. *)
Definition answer_writes (w : World) (c : client) (inbound : list string)
  : list (client * entry) :=
  map (fun f => (c, Some f)) (answers w c inbound).

(** The rules other than the static one. *)
Definition listed_rules (rules : list Rule) : list Rule :=
  List.filter (fun r => negb (String.eqb static_rule (rule r))) rules.

(** * Properties *)

(** ** Lists as stacks *)

Lemma pop_snoc {A} (l : list A) (x : A) : pop (l ++ [x]) = Some (x, l).
Proof.
  induction l as [|y l IH]; simpl; [reflexivity|].
  rewrite IH. reflexivity.
Qed.

Lemma pop_nil {A} : pop (@nil A) = None.
Proof. reflexivity. Qed.

(** ** Draining the queue *)

Lemma get_updates_loop_spec w0 (l : list entry) :
  forall acc cs,
    get_updates_loop acc (mkSys (mkHandler l cs) w0)
    = (inr (acc ++ rev l), mkSys (mkHandler [] cs) w0).
Proof.
  induction l as [|x l IH] using rev_ind; intros acc cs.
  - simp get_updates_loop. simpl. rewrite app_nil_r. reflexivity.
  - simp get_updates_loop. simpl. rewrite pop_snoc. simpl.
    unfold set_updates. simpl. rewrite IH, rev_unit, <- app_assoc.
    reflexivity.
Qed.

Lemma get_updates_spec (s : Sys) :
  get_updates s
  = (inr (rev (updates (websocket_handler s))), set_updates [] s).
Proof. destruct s as [[l cs] tr]. apply get_updates_loop_spec. Qed.

(** ** The broadcast tick *)

Lemma send_eq w c m s :
  send w c m s =
  match websocket_send w c m with
  | inr _ => (inr tt, log_write c m s)
  | inl ConnectionClosed => (inr tt, s)
  | inl e => (inl e, s)
  end.
Proof.
  unfold send, try_except, websocket_send_msg, bind, lift, modify.
  destruct (websocket_send w c m) as [[]|[]]; reflexivity.
Qed.

Lemma send_handler w c m s :
  websocket_handler (snd (send w c m s)) = websocket_handler s.
Proof.
  rewrite send_eq. destruct (websocket_send w c m) as [[]|[]]; reflexivity.
Qed.

(** With no other task at its awaits, the loop over the live set is the
    plain loop over its members. *)
Lemma set_iter_quiet w m (rest : list client) :
  forall s,
    (forall c, c ∈ rest -> c ∈ clients (websocket_handler s)) ->
    set_iter w m (size (clients (websocket_handler s))) rest [] s
    = match for_each rest (fun c => send w c m) s with
      | (inl e, s') => (inl e, s')
      | (inr _, s') => (inr [], s')
      end.
Proof.
  induction rest as [|c rest IH]; intros s Hin; simpl.
  - rewrite Nat.eqb_refl. reflexivity.
  - rewrite Nat.eqb_refl. simpl.
    rewrite decide_True by (apply Hin, elem_of_cons; left; reflexivity).
    unfold bind. pose proof (send_handler w c m s) as Hh.
    destruct (send w c m s) as [[e|[]] s']; simpl in Hh; [reflexivity|].
    rewrite <- Hh. apply IH. rewrite Hh. intros c' Hc'.
    apply Hin, elem_of_cons. right. exact Hc'.
Qed.

Lemma fan_out_live_quiet w m s :
  fan_out_live w m [] s
  = match fan_out w m s with
    | (inl e, s') => (inl e, s')
    | (inr _, s') => (inr [], s')
    end.
Proof.
  destruct m as [f|]; simpl; [|reflexivity].
  unfold bind, get_clients, get_sys, ret. simpl.
  apply set_iter_quiet. intros c. apply elem_of_elements.
Qed.

Lemma producer_loop_nil w sched s : producer_loop w sched [] s = (inr tt, s).
Proof. simp producer_loop. reflexivity. Qed.

Lemma producer_loop_snoc w sched l m s :
  producer_loop w sched (l ++ [m]) s
  = (let* sched' := fan_out_live w m sched in producer_loop w sched' l) s.
Proof.
  set (rhs := (let* sched' := fan_out_live w m sched in
               producer_loop w sched' l) s).
  simp producer_loop. simpl. rewrite pop_snoc. simpl.
  reflexivity.
Qed.

Lemma producer_loop_rev w (l : list entry) s :
  producer_loop w [] (rev l) s = fifo_broadcast w l s.
Proof.
  revert s. induction l as [|m l IH]; intros s; simpl.
  - apply producer_loop_nil.
  - rewrite producer_loop_snoc. unfold bind.
    rewrite fan_out_live_quiet.
    destruct (fan_out w m s) as [[e|[]] s']; [reflexivity|apply IH].
Qed.

Lemma producer_tick_fifo w s : producer_tick w s = fifo_tick w s.
Proof.
  unfold producer_tick, producer_tick_live, fifo_tick, bind.
  rewrite get_updates_spec. unfold drainAll.
  apply producer_loop_rev.
Qed.

(** C4 -- In every drain cycle the pop loop of [get_updates] followed by
    the pop-from-the-end loop of [producer_handler] is extensionally
    equal to draining an explicit FIFO buffer: from every state and in
    every world the result, the final state and the sequence of frames
    written are the same, so frames reach the clients in the order in
    which they were enqueued. *)
Theorem producer_tick_is_fifo (w : World) (s : Sys) :
  producer_tick w s = fifo_tick w s.
Proof. apply producer_tick_fifo. Qed.

(** ** Writes and their failures *)

Lemma add_wire_nil s : add_wire [] s = s.
Proof. destruct s. unfold add_wire. simpl. rewrite app_nil_r. reflexivity. Qed.

Lemma add_wire_add_wire t1 t2 s :
  add_wire t2 (add_wire t1 s) = add_wire (t1 ++ t2) s.
Proof. unfold add_wire. simpl. rewrite <- app_assoc. reflexivity. Qed.

Lemma for_each_send w m (cs : list client) s :
  forallb (fun c => absorbed (websocket_send w c m)) cs = true ->
  for_each cs (fun c => send w c m) s
  = (inr tt, add_wire (accepted w m cs) s).
Proof.
  revert s. induction cs as [|c cs IH]; intros s; simpl.
  - intros _. rewrite add_wire_nil. reflexivity.
  - intros [Hc Hcs]%andb_prop. unfold bind. rewrite send_eq.
    unfold accepted, accepts. simpl.
    destruct (websocket_send w c m) as [e|[]].
    + destruct e; try discriminate. apply IH, Hcs.
    + rewrite IH by exact Hcs. unfold accepted, accepts, add_wire, log_write.
      simpl. rewrite <- app_assoc. reflexivity.
Qed.

Lemma fifo_broadcast_ok w (q : list entry) s :
  only_closures w (set_updates q s) = true ->
  fifo_broadcast w q s
  = (inr tt,
     add_wire (tick_writes w (elements (clients (websocket_handler s))) q) s).
Proof.
  unfold only_closures. simpl. revert s.
  induction q as [|m q IH]; intros s; simpl.
  - intros _. rewrite add_wire_nil. reflexivity.
  - intros [Hm Hq]%andb_prop. unfold bind, tick_writes. simpl.
    destruct m as [f|]; simpl.
    + unfold get_clients, get_sys, bind, ret.
      rewrite for_each_send by exact Hm.
      rewrite IH by exact Hq. rewrite add_wire_add_wire. reflexivity.
    + unfold ret. apply IH, Hq.
Qed.

Lemma producer_tick_ok w s :
  only_closures w s = true ->
  producer_tick w s
  = (inr tt,
     add_wire
       (tick_writes w (elements (clients (websocket_handler s)))
          (updates (websocket_handler s)))
       (set_updates [] s)).
Proof.
  intros H. rewrite producer_tick_fifo.
  unfold fifo_tick, drainAll, bind.
  rewrite fifo_broadcast_ok.
  - reflexivity.
  - destruct s as [[q cs] tr]. exact H.
Qed.

(** ** What one client receives *)

Lemma received_app c t1 t2 :
  received c (t1 ++ t2) = received c t1 ++ received c t2.
Proof. unfold received. rewrite List.filter_app, map_app. reflexivity. Qed.

Lemma received_accepted_absent w m c (cs : list client) :
  c ∉ cs -> received c (accepted w m cs) = [].
Proof.
  unfold received, accepted.
  induction cs as [|c' cs IH]; intros Hc; simpl; [reflexivity|].
  apply not_elem_of_cons in Hc as [Hne Hc].
  destruct (accepts w c' m); simpl; [|apply IH, Hc].
  destruct (Nat.eqb_spec c' c) as [->|_]; [congruence|apply IH, Hc].
Qed.

Lemma received_accepted w m c (cs : list client) :
  NoDup cs -> c ∈ cs ->
  received c (accepted w m cs) = if accepts w c m then [m] else [].
Proof.
  induction 1 as [|c' cs Hnotin Hnd IH]; intros Hc.
  - apply elem_of_nil in Hc as [].
  - apply elem_of_cons in Hc as [->|Hc].
    + unfold accepted. simpl. destruct (accepts w c' m) eqn:E.
      * unfold received. simpl. rewrite Nat.eqb_refl. simpl. f_equal.
        apply (received_accepted_absent w m c' cs Hnotin).
      * apply (received_accepted_absent w m c' cs Hnotin).
    + assert (c' <> c) as Hne by (intros ->; contradiction).
      unfold accepted. simpl. destruct (accepts w c' m); simpl.
      * unfold received. simpl.
        destruct (Nat.eqb_spec c' c) as [?|_]; [contradiction|].
        apply IH, Hc.
      * apply IH, Hc.
Qed.

Lemma received_tick_writes w c (cs : list client) (q : list entry) :
  NoDup cs ->
  received c (tick_writes w cs q)
  = if decide (c ∈ cs) then deliverable w c q else [].
Proof.
  intros Hnd. unfold tick_writes.
  induction q as [|m q IH]; simpl.
  - destruct (decide (c ∈ cs)); reflexivity.
  - rewrite received_app, IH. destruct (decide (c ∈ cs)) as [Hc|Hc].
    + destruct m as [f|]; simpl; [|reflexivity].
      rewrite received_accepted by assumption.
      destruct (accepts w c (Some f)); reflexivity.
    + destruct m as [f|]; simpl; [|reflexivity].
      rewrite received_accepted_absent by assumption. reflexivity.
Qed.

Lemma producer_tick_received w s c :
  only_closures w s = true ->
  received c (wire (snd (producer_tick w s)))
  = received c (wire s)
    ++ (if decide (c ∈ clients (websocket_handler s))
        then deliverable w c (updates (websocket_handler s)) else []).
Proof.
  intros H. rewrite producer_tick_ok by exact H. simpl.
  rewrite received_app, received_tick_writes by apply NoDup_elements.
  destruct (decide (c ∈ clients (websocket_handler s))) as [Hc|Hc];
    destruct (decide (c ∈ elements (clients (websocket_handler s))))
      as [Hc'|Hc']; try reflexivity;
    rewrite elem_of_elements in Hc'; contradiction.
Qed.

(** ** The broadcast tick among the other tasks *)

Lemma set_iter_error w m si (rest : list client) :
  forall sched s e s',
    (forall c, absorbed (websocket_send w c m) = true) ->
    set_iter w m si rest sched s = (inl e, s') ->
    e = RuntimeError.
Proof.
  induction rest as [|c rest IH]; intros sched s e s' Habs; simpl.
  - destruct (negb _); intros [= <- <-]; reflexivity.
  - destruct (negb _); [intros [= <- <-]; reflexivity|].
    destruct (decide (c ∈ clients (websocket_handler s)));
      [|apply IH, Habs].
    rewrite send_eq. specialize (Habs c) as Hc.
    destruct (websocket_send w c m) as [x|[]].
    + destruct x; try discriminate Hc. apply IH, Habs.
    + apply IH, Habs.
Qed.

Lemma set_iter_size w m si (rest : list client) :
  forall sched s sched' s',
    set_iter w m si rest sched s = (inr sched', s') ->
    size (clients (websocket_handler s')) = si.
Proof.
  induction rest as [|c rest IH]; intros sched s sched' s'; simpl.
  - destruct (Nat.eqb_spec (size (clients (websocket_handler s))) si)
      as [Hsize|_]; simpl; [|discriminate].
    intros [= _ <-]. exact Hsize.
  - destruct (negb _); [discriminate|].
    destruct (decide (c ∈ clients (websocket_handler s))); [|apply IH].
    destruct (send w c m _) as [[x|[]] s1]; [discriminate|apply IH].
Qed.

Lemma fan_out_live_error w m sched s e s' :
  (forall c m, absorbed (websocket_send w c m) = true) ->
  fan_out_live w m sched s = (inl e, s') ->
  e = RuntimeError.
Proof.
  intros Habs. destruct m as [f|]; simpl; [|discriminate].
  unfold bind, get_clients, get_sys, ret. simpl.
  apply set_iter_error. intros c. apply Habs.
Qed.

Lemma fan_out_live_size w m sched s sched' s' :
  fan_out_live w m sched s = (inr sched', s') ->
  size (clients (websocket_handler s'))
  = size (clients (websocket_handler s)).
Proof.
  destruct m as [f|]; simpl.
  - unfold bind, get_clients, get_sys, ret. simpl. apply set_iter_size.
  - intros [= _ <-]. reflexivity.
Qed.

Lemma producer_loop_error w (messages : list entry) :
  forall sched s e s',
    (forall c m, absorbed (websocket_send w c m) = true) ->
    producer_loop w sched messages s = (inl e, s') ->
    e = RuntimeError.
Proof.
  induction messages as [|m messages IH] using rev_ind;
    intros sched s e s' Habs.
  - rewrite producer_loop_nil. discriminate.
  - rewrite producer_loop_snoc. unfold bind.
    destruct (fan_out_live w m sched s) as [[x|sched1] s1] eqn:Hfan.
    + intros [= <- <-]. apply (fan_out_live_error _ _ _ _ _ _ Habs Hfan).
    + apply IH, Habs.
Qed.

Lemma producer_loop_size w (messages : list entry) :
  forall sched s s',
    producer_loop w sched messages s = (inr tt, s') ->
    size (clients (websocket_handler s'))
    = size (clients (websocket_handler s)).
Proof.
  induction messages as [|m messages IH] using rev_ind; intros sched s s'.
  - rewrite producer_loop_nil. intros [= <-]. reflexivity.
  - rewrite producer_loop_snoc. unfold bind.
    destruct (fan_out_live w m sched s) as [[x|sched1] s1] eqn:Hfan;
      [discriminate|].
    intros Hloop. rewrite (IH _ _ _ Hloop).
    apply (fan_out_live_size _ _ _ _ _ _ Hfan).
Qed.

Lemma producer_tick_live_error w sched s e :
  (forall c m, absorbed (websocket_send w c m) = true) ->
  fst (producer_tick_live w sched s) = inl e ->
  e = RuntimeError.
Proof.
  intros Habs. unfold producer_tick_live, bind.
  rewrite get_updates_spec.
  destruct (producer_loop w sched _ _) as [r s'] eqn:Hloop. simpl.
  intros ->. apply (producer_loop_error _ _ _ _ _ _ Habs Hloop).
Qed.

Lemma producer_tick_live_size w sched s :
  fst (producer_tick_live w sched s) = inr tt ->
  size (clients (websocket_handler (snd (producer_tick_live w sched s))))
  = size (clients (websocket_handler s)).
Proof.
  unfold producer_tick_live, bind. rewrite get_updates_spec.
  destruct (producer_loop w sched _ _) as [r s'] eqn:Hloop. simpl.
  intros ->. apply (producer_loop_size _ _ _ _ _ Hloop).
Qed.

(** ** C1: a write that fails during the broadcast *)

(** With three clients of which the second has a closed connection, the
    tick ends normally and serves the two others, but the second client
    is still registered afterwards: [send] only passes. When the write
    to the second client times out instead, the exception is not caught
    at all and the tick ends with it. *)
Lemma failed_write_stays_registered :
  ~ failed_write_unregisters world_2_closed three_clients
  /\ ~ failed_write_unregisters world_2_timeout three_clients.
Proof.
  split; intros H.
  - destruct (H 2 (Some frame_a) ConnectionClosed)
      as (s' & Htick & Hgone & _).
    + set_solver.
    + set_solver.
    + reflexivity.
    + reflexivity.
    + rewrite producer_tick_ok in Htick by reflexivity.
      injection Htick as <-. apply Hgone. simpl. set_solver.
  - destruct (H 2 (Some frame_a) (OtherError "TimeoutError"))
      as (s' & Htick & _).
    + set_solver.
    + set_solver.
    + reflexivity.
    + reflexivity.
    + apply (f_equal fst) in Htick. vm_compute in Htick.
      discriminate Htick.
Qed.

(** A write that fails with anything else than [ConnectionClosed]
    escapes [send] and ends the tick: the queue has been drained, and a
    client whose socket works has got at most the first frame. *)
Example timeout_aborts_tick :
  let s' := snd (producer_tick world_2_timeout three_clients) in
  fst (producer_tick world_2_timeout three_clients)
  = inl (OtherError "TimeoutError")
  /\ length (received 1 (wire s')) <= 1
  /\ length (received 3 (wire s')) <= 1
  /\ updates (websocket_handler s') = [].
Proof. vm_compute. repeat split; lia. Qed.

Lemma producer_tick_closed_only w s :
  only_closures w s = true ->
  exists s',
    producer_tick w s = (inr tt, s')
    /\ clients (websocket_handler s') = clients (websocket_handler s)
    /\ updates (websocket_handler s') = []
    /\ forall c, c ∈ clients (websocket_handler s) ->
         received c (wire s')
         = received c (wire s)
           ++ deliverable w c (updates (websocket_handler s)).
Proof.
  intros H. eexists. split; [apply producer_tick_ok, H|].
  split; [reflexivity|]. split; [reflexivity|].
  intros c Hc.
  pose proof (producer_tick_received w s c H) as Hr.
  rewrite producer_tick_ok in Hr by exact H.
  rewrite decide_True in Hr by exact Hc. exact Hr.
Qed.

(** C1 (amended) -- A write that fails with [ConnectionClosed] is caught
    inside [send], which changes nothing: the failing client is NOT
    removed from the registry by the broadcast loop. Whatever the other
    tasks do while the tick is suspended at its writes, a tick whose
    failing writes all fail with [ConnectionClosed] never ends with
    that exception. And provided no other task runs while the tick is
    suspended, the tick ends normally, the registry is as it was, the
    queue is empty, and every registered client has received, in the
    order of enqueueing, exactly the queued frames that its own socket
    takes, whatever happens at the other clients. *)
Theorem closed_connection_is_isolated (w : World) (s : Sys) :
  (forall c m,
      websocket_send w c m = inl ConnectionClosed ->
      send w c m s = (inr tt, s))
  /\ (forall sched e,
        (forall c m, absorbed (websocket_send w c m) = true) ->
        fst (producer_tick_live w sched s) = inl e ->
        e <> ConnectionClosed)
  /\ (only_closures w s = true ->
      exists s',
        producer_tick_live w [] s = (inr tt, s')
        /\ clients (websocket_handler s') = clients (websocket_handler s)
        /\ updates (websocket_handler s') = []
        /\ forall c, c ∈ clients (websocket_handler s) ->
             received c (wire s')
             = received c (wire s)
               ++ deliverable w c (updates (websocket_handler s))).
Proof.
  split; [|split].
  - intros c m Hclosed. rewrite send_eq, Hclosed. reflexivity.
  - intros sched e Habs He.
    rewrite (producer_tick_live_error w sched s e Habs He). discriminate.
  - apply producer_tick_closed_only.
Qed.

Lemma closed_connection_is_isolated_witness :
  send world_2_closed 2 (Some frame_a) three_clients
  = (inr tt, three_clients)
  /\ (forall e,
        fst (producer_tick_live world_2_closed
               [mkAwait [] [Inbound 2 (inl ConnectionClosed)]]
               three_clients) = inl e ->
        e <> ConnectionClosed)
  /\ exists s',
       producer_tick_live world_2_closed [] three_clients = (inr tt, s')
       /\ clients (websocket_handler s') = {[1; 2; 3]}
       /\ updates (websocket_handler s') = []
       /\ forall c, c ∈ ({[1; 2; 3]} : gset client) ->
            received c (wire s')
            = received c []
              ++ deliverable world_2_closed c [Some frame_a; Some frame_b].
Proof.
  destruct (closed_connection_is_isolated world_2_closed three_clients)
    as (Hsend & Hnever & Htick).
  split; [apply Hsend; reflexivity|]. split.
  - intros e. apply Hnever. intros c m. simpl.
    destruct (Nat.eqb c 2); reflexivity.
  - apply Htick. vm_compute. reflexivity.
Defined.

(** In that tick clients 1 and 3 get both frames, oldest first, and
    client 2 gets none. *)
Example three_clients_one_closed :
  let s' := snd (producer_tick world_2_closed three_clients) in
  received 1 (wire s') = [Some frame_a; Some frame_b]
  /\ received 3 (wire s') = [Some frame_a; Some frame_b]
  /\ received 2 (wire s') = []
  /\ elements (clients (websocket_handler s'))
     = elements ({[1; 2; 3]} : gset client).
Proof. vm_compute. repeat split. Qed.

(** ** The two dispatches agree with their tables *)

Lemma add_update_table w type s :
  add_update w type s =
  match update_producer type with
  | Some p => (let* f := p w in updates_append (Some f)) s
  | None => updates_append None s
  end.
Proof.
  unfold add_update, update_producer, update_producers, case_of. simpl.
  repeat (destruct (String.eqb type _); simpl; [reflexivity|]).
  reflexivity.
Qed.

Lemma consumer_step_table w c received s :
  consumer_step w c received s =
  match command_producer (lower received) with
  | Some p => (let* f := p w in websocket_send_msg w c (Some f)) s
  | None =>
      (handler_getattr "prep_data" ;;
       websocket_send_msg w c
         (Some (prep_data
                  (JStr ("unknown message: " ++ lower received)%string)
                  "unknown"))) s
  end.
Proof.
  unfold consumer_step, command_producer, command_producers.
  cbn [find_producer].
  repeat (destruct (case_of (lower received) _); [reflexivity|]).
  reflexivity.
Qed.

(** ** The producers only read the world *)

Lemma reads_only_lift {A} (r : res A) : reads_only (lift r).
Proof. intros s. reflexivity. Qed.

Lemma reads_only_ret {A} (a : A) : reads_only (ret a).
Proof. intros s. reflexivity. Qed.

Lemma reads_only_bind {A B} (m : M A) (k : A -> M B) :
  reads_only m -> (forall a, reads_only (k a)) -> reads_only (bind m k).
Proof.
  intros Hm Hk s. unfold outcome, bind. rewrite (Hm s), (Hm fresh).
  destruct (outcome m) as [e|a]; [reflexivity|].
  rewrite (Hk a s), (Hk a fresh). reflexivity.
Qed.

Ltac reads_only_tac :=
  repeat first
    [ apply reads_only_lift
    | apply reads_only_ret
    | apply reads_only_bind; [|intros ?]
    | match goal with
      | |- reads_only (if ?b then _ else _) => destruct b
      | |- reads_only (match ?o with Some _ => _ | None => _ end) =>
          destruct o
      end ].

Lemma update_producers_read_only w type p :
  update_producer type = Some p -> reads_only (p w).
Proof.
  unfold update_producer, update_producers, case_of. simpl.
  repeat (destruct (String.eqb type _); simpl;
          [intros [= <-];
           unfold get_trainer, get_encounter_log, get_items_frame,
             get_party_frame, get_shiny_log, get_encounter_rate,
             get_stats, get_event_flags, get_emulator, get_fps;
           reads_only_tac|]).
  discriminate.
Qed.

Lemma command_producers_read_only w message p :
  command_producer message = Some p -> reads_only (p w).
Proof.
  unfold command_producer, command_producers. cbn [find_producer].
  repeat (destruct (case_of message _);
          [intros [= <-];
           unfold get_trainer, get_encounter_log, get_items_frame,
             get_party_frame, get_shiny_log, get_encounter_rate,
             get_stats, get_event_flags, get_emulator, get_fps;
           reads_only_tac|]).
  discriminate.
Qed.

(** ** Enqueueing *)

Lemma add_update_eq w type s :
  add_update w type s =
  match snapshot w type with
  | inr e =>
      (inr tt, set_updates (updates (websocket_handler s) ++ [e]) s)
  | inl x => (inl x, s)
  end.
Proof.
  rewrite add_update_table. unfold snapshot.
  destruct (update_producer type) as [p|] eqn:Hp; [|reflexivity].
  unfold bind. rewrite (update_producers_read_only w type p Hp s).
  destruct (outcome (p w)); reflexivity.
Qed.

Lemma set_updates_set_updates u1 u2 s :
  set_updates u2 (set_updates u1 s) = set_updates u2 s.
Proof. reflexivity. Qed.

Lemma set_updates_same s :
  set_updates (updates (websocket_handler s)) s = s.
Proof. destruct s as [[q cs] tr]. reflexivity. Qed.

Lemma enqueue_all_ok calls :
  forall entries s,
    snapshots calls = inr entries ->
    enqueue_all calls s
    = (inr tt, set_updates (updates (websocket_handler s) ++ entries) s).
Proof.
  unfold snapshots.
  induction calls as [|[w type] calls IH]; intros entries s; simpl.
  - intros [= <-]. rewrite app_nil_r, set_updates_same. reflexivity.
  - unfold bind. rewrite add_update_eq.
    destruct (snapshot w type) as [x|e]; simpl; [discriminate|].
    destruct (res_all _) as [x|es] eqn:Hes; simpl; [discriminate|].
    intros [= <-]. rewrite (IH es) by reflexivity. simpl.
    unfold set_updates. simpl. rewrite <- app_assoc. reflexivity.
Qed.

Lemma snapshots_length calls entries :
  snapshots calls = inr entries -> length entries = length calls.
Proof.
  unfold snapshots. revert entries.
  induction calls as [|call calls IH]; intros entries; simpl.
  - intros [= <-]. reflexivity.
  - destruct (snapshot _ _); simpl; [discriminate|].
    destruct (res_all _) as [x|es]; simpl; [discriminate|].
    intros [= <-]. simpl. f_equal. apply IH. reflexivity.
Qed.

(** ** C3: the order in which [get_updates] returns *)

(** After [add_update("trainer")] and [add_update("party")] the list
    that [get_updates] returns starts with the party frame. *)
Lemma get_updates_is_not_fifo :
  ~ drains_in_enqueue_order
      [(calm_world, "trainer"); (calm_world, "party")].
Proof.
  intros H. specialize (H _ eq_refl). vm_compute in H. discriminate H.
Qed.

(** C3 (amended) -- After k invalidations n1, ..., nk on an empty queue
    with no drain in between, one call of [get_updates()] returns the k
    queued entries in exactly the REVERSE order nk, ..., n1 (last in,
    first out) and leaves the queue empty; it is the second pop loop,
    in [producer_handler], that restores the order of enqueueing. *)
Theorem get_updates_returns_reverse
  (calls : list (World * string)) (entries : list entry) (s : Sys) :
  updates (websocket_handler s) = [] ->
  snapshots calls = inr entries ->
  length entries = length calls
  /\ (enqueue_all calls ;; get_updates) s = (inr (rev entries), s).
Proof.
  intros Hempty Hcalls. split; [apply snapshots_length, Hcalls|].
  unfold bind. rewrite (enqueue_all_ok calls entries s Hcalls).
  rewrite get_updates_spec. simpl. rewrite Hempty. simpl.
  rewrite set_updates_set_updates, <- Hempty, set_updates_same.
  reflexivity.
Qed.

Lemma get_updates_returns_reverse_witness :
  length [Some (mkFrame "trainer"
                  (JObj [("name", JStr "Red");
                         ("game_state", JStr "OVERWORLD")]));
          Some (mkFrame "party" (JArr [JStr "Torchic"]));
          Some (mkFrame "fps" JNull)] = 3
  /\ (enqueue_all [(calm_world, "trainer"); (calm_world, "party");
                   (calm_world, "fps")] ;; get_updates) fresh
     = (inr [Some (mkFrame "fps" JNull);
             Some (mkFrame "party" (JArr [JStr "Torchic"]));
             Some (mkFrame "trainer"
                     (JObj [("name", JStr "Red");
                            ("game_state", JStr "OVERWORLD")]))],
        fresh).
Proof.
  apply (get_updates_returns_reverse
           [(calm_world, "trainer"); (calm_world, "party");
            (calm_world, "fps")]);
    reflexivity.
Defined.

(** ** C7: an invalidation with an unrecognised name *)

Lemma update_producer_unknown type :
  type ∉ recognised_updates -> update_producer type = None.
Proof.
  intros H.
  unfold update_producer, update_producers, case_of. simpl.
  repeat match goal with
         | |- context [String.eqb type ?name] =>
             destruct (String.eqb_spec type name) as [->|_];
             [exfalso; apply H; unfold recognised_updates; simpl;
              set_solver|];
             simpl
         end.
  reflexivity.
Qed.

(** [add_update("bogus")] appends [None] itself: the entry is no frame,
    it has neither a type nor a data field. *)
Lemma unknown_enqueues_no_message :
  ("bogus" ∉ recognised_updates)
  /\ ~ unknown_enqueues_null_message calm_world "bogus" fresh.
Proof.
  split; [apply (bool_decide_unpack _); vm_compute; exact I|]. intros (f & _ & H). vm_compute in H.
  discriminate H.
Qed.

(** C7 (amended) -- For every name outside the recognised set,
    [add_update(name)] raises nothing and still appends one entry to the
    update queue, behind those already queued: the bare value [None],
    not a type-and-data message (unrecognised invalidations are
    enqueued, not silently dropped). *)
Theorem add_update_unknown_appends_None
  (w : World) (type : string) (s : Sys) :
  type ∉ recognised_updates ->
  add_update w type s
  = (inr tt, set_updates (updates (websocket_handler s) ++ [None]) s).
Proof.
  intros H. rewrite add_update_eq. unfold snapshot.
  rewrite (update_producer_unknown type H). reflexivity.
Qed.

Lemma add_update_unknown_appends_None_witness :
  add_update calm_world "bogus" three_clients
  = (inr tt,
     set_updates (updates (websocket_handler three_clients) ++ [None])
       three_clients).
Proof.
  apply (add_update_unknown_appends_None calm_world "bogus" three_clients).
  apply (bool_decide_unpack _). vm_compute. exact I.
Defined.

(** ** The read loop of one connection *)

Lemma consumer_step_raises w c received p e s :
  command_producer (lower received) = Some p ->
  outcome (p w) = inl e ->
  consumer_step w c received s = (inl e, s).
Proof.
  intros Hp He. rewrite consumer_step_table, Hp. unfold bind.
  rewrite (command_producers_read_only w _ p Hp s), He. reflexivity.
Qed.

Lemma consumer_step_unknown w c received s :
  command_producer (lower received) = None ->
  consumer_step w c received s = (inl AttributeError, s).
Proof. intros Hp. rewrite consumer_step_table, Hp. reflexivity. Qed.

Lemma not_elem_of_removed (c : client) (X : gset client) :
  c ∉ X ∖ {[c]}.
Proof.
  rewrite elem_of_difference, elem_of_singleton. intros [_ Hc].
  apply Hc. reflexivity.
Qed.

Lemma add_client_eq c s :
  add_client c s
  = (inr tt, set_clients ({[c]} ∪ clients (websocket_handler s)) s).
Proof. reflexivity. Qed.

Lemma remove_client_present c s :
  c ∈ clients (websocket_handler s) ->
  remove_client c s
  = (inr tt, set_clients (clients (websocket_handler s) ∖ {[c]}) s).
Proof.
  intros Hc. unfold remove_client, bind, get_sys.
  rewrite decide_True by exact Hc. reflexivity.
Qed.

Lemma remove_client_absent c s :
  c ∉ clients (websocket_handler s) ->
  remove_client c s = (inl KeyError, s).
Proof.
  intros Hc. unfold remove_client, bind, get_sys.
  rewrite decide_False by exact Hc. reflexivity.
Qed.

Lemma consumer_step_eq w c command s :
  consumer_step w c command s =
  match command_reply w command with
  | inl e => (inl e, s)
  | inr f =>
      match websocket_send w c (Some f) with
      | inl e => (inl e, s)
      | inr _ => (inr tt, log_write c (Some f) s)
      end
  end.
Proof.
  rewrite consumer_step_table. unfold command_reply.
  destruct (command_producer (lower command)) as [p|] eqn:Hp.
  - unfold bind. rewrite (command_producers_read_only w _ p Hp s).
    destruct (outcome (p w)) as [e|f]; [reflexivity|].
    unfold websocket_send_msg, bind, lift, modify.
    destruct (websocket_send w c (Some f)) as [e|[]]; reflexivity.
  - reflexivity.
Qed.

Lemma consumer_loop_answers w c inbound closing :
  forall s,
    consumer_loop w c inbound closing s
    = (inl (loop_exit w c inbound closing),
       add_wire (answer_writes w c inbound) s).
Proof.
  unfold answer_writes.
  induction inbound as [|command inbound IH]; intros s; simpl.
  - rewrite add_wire_nil. reflexivity.
  - unfold bind. rewrite consumer_step_eq. unfold accepts.
    destruct (command_reply w command) as [e|f].
    + rewrite add_wire_nil. reflexivity.
    + destruct (websocket_send w c (Some f)) as [e|[]].
      * rewrite add_wire_nil. reflexivity.
      * rewrite IH. unfold add_wire, log_write. simpl.
        rewrite <- app_assoc. reflexivity.
Qed.

(** The read loop from connect to disconnect, in closed form. *)
Lemma consumer_handler_eq w c inbound closing s :
  consumer_handler w c inbound closing s
  = (if is_Exception (loop_exit w c inbound closing) then inr tt
     else inl (loop_exit w c inbound closing),
     add_wire (answer_writes w c inbound) (came_and_went c s)).
Proof.
  unfold consumer_handler, bind. rewrite add_client_eq.
  unfold try_finally, try_except. rewrite consumer_loop_answers.
  destruct (is_Exception (loop_exit w c inbound closing));
    unfold ret, raise;
    rewrite remove_client_present
      by (apply elem_of_union_l, elem_of_singleton_2; reflexivity);
    reflexivity.
Qed.

Lemma received_answer_writes_other w c c' inbound :
  c' <> c -> received c' (answer_writes w c inbound) = [].
Proof.
  intros Hne. unfold answer_writes, received.
  induction (answers w c inbound) as [|f fs IH]; simpl; [reflexivity|].
  destruct (Nat.eqb_spec c c') as [->|_]; [contradiction|exact IH].
Qed.

Lemma received_answer_writes_own w c inbound :
  received c (answer_writes w c inbound) = map Some (answers w c inbound).
Proof.
  unfold answer_writes, received.
  induction (answers w c inbound) as [|f fs IH]; simpl; [reflexivity|].
  rewrite Nat.eqb_refl. simpl. f_equal. exact IH.
Qed.

Lemma answers_cut w c (earlier later : list string) command e :
  command_reply w command = inl e ->
  answers w c (earlier ++ command :: later) = answers w c earlier.
Proof.
  intros He. induction earlier as [|b earlier IH]; simpl.
  - rewrite He. reflexivity.
  - destruct (command_reply w b) as [e'|f]; [reflexivity|].
    destruct (accepts w c (Some f)); [|reflexivity].
    f_equal. exact IH.
Qed.

Lemma loop_exit_cut w c (earlier later : list string) command e closing :
  command_reply w command = inl e ->
  loop_exit w c (earlier ++ command :: later) closing
  = loop_exit w c earlier e.
Proof.
  intros He. induction earlier as [|b earlier IH]; simpl.
  - rewrite He. reflexivity.
  - destruct (command_reply w b) as [e'|f]; [reflexivity|].
    destruct (websocket_send w c (Some f)); [reflexivity|exact IH].
Qed.

Lemma loop_exit_answered w c (inbound : list string) closing :
  length (answers w c inbound) = length inbound ->
  loop_exit w c inbound closing = closing.
Proof.
  induction inbound as [|b inbound IH]; simpl; [reflexivity|].
  unfold accepts.
  destruct (command_reply w b) as [e'|f]; [discriminate|].
  destruct (websocket_send w c (Some f)); [discriminate|].
  simpl. intros [= Hlen]. apply IH, Hlen.
Qed.

(** A read loop whose first step raises an [Exception]: the exception is
    swallowed and the client is unregistered. *)
Lemma consumer_handler_first_step_raises w c received rest closing e s :
  is_Exception e = true ->
  (forall s0, consumer_step w c received s0 = (inl e, s0)) ->
  consumer_handler w c (received :: rest) closing s
  = (inr tt, came_and_went c s).
Proof.
  intros He Hstep.
  unfold consumer_handler, bind, add_client, modify, try_finally,
    try_except.
  simpl. unfold bind. rewrite Hstep, He.
  unfold ret, remove_client, bind, get_sys. simpl.
  rewrite decide_True by (apply elem_of_union_l, elem_of_singleton_2;
                          reflexivity).
  reflexivity.
Qed.

(** ** C2: a command that matches no name or alias *)

(** C2 (the code at the failing input) -- On the command ["hello"] the
    default branch looks [prep_data] up on the [WebsocketHandler]
    instance, which has no such attribute: the step raises
    [AttributeError] before anything is written, the catch-all of the
    read loop swallows it, and the handler ends with the client
    unregistered and without any frame on the wire, although further
    commands were waiting. *)
Theorem unknown_command_gets_no_reply
  (w : World) (c : client) (rest : list string) (closing : exn) (s : Sys) :
  consumer_step w c "hello" s = (inl AttributeError, s)
  /\ consumer_handler w c ("hello" :: rest) closing s
     = (inr tt, came_and_went c s)
  /\ wire (came_and_went c s) = wire s
  /\ (c ∉ clients (websocket_handler (came_and_went c s))).
Proof.
  split; [apply consumer_step_unknown; reflexivity|].
  split.
  - apply consumer_handler_first_step_raises with (e := AttributeError);
      [reflexivity|].
    intros s0. apply consumer_step_unknown. reflexivity.
  - split; [reflexivity|]. simpl. apply not_elem_of_removed.
Qed.

(** ** C5: a producer that raises *)

(** When [trainer.to_dict()] raises, [add_update("trainer")] raises the
    same exception and the queue stays empty. And when the read loop of
    client 1 gets the command ["trainer"] while a tick over three
    working sockets is suspended at its first write, the loop ends,
    client 1 is unregistered, and the tick dies on the next step of its
    iteration: of the clients 2 and 3 at least one gets nothing. *)
Lemma producer_failure_reaches_caller :
  add_update world_trainer_fails "trainer" fresh
  = (inl (OtherError "RuntimeError"), fresh)
  /\ ~ failure_becomes_null_message world_trainer_fails "trainer" fresh
  /\ fst (producer_tick_live world_trainer_fails
            [mkAwait [Inbound 1 (inr "trainer")] []] three_clients)
     = inl RuntimeError
  /\ ~ dispatch_failure_spares_tick world_trainer_fails 1 "trainer"
        three_clients.
Proof.
  split; [reflexivity|]. split; [|split].
  - intros H.
    destruct (H get_trainer (OtherError "RuntimeError") eq_refl eq_refl)
      as (f & _ & Hf).
    vm_compute in Hf. discriminate Hf.
  - vm_compute. reflexivity.
  - intros H.
    assert (2 ∈ clients (websocket_handler three_clients)) as H2
      by (apply (bool_decide_unpack _); vm_compute; exact I).
    assert (3 ∈ clients (websocket_handler three_clients)) as H3
      by (apply (bool_decide_unpack _); vm_compute; exact I).
    pose proof (H 2 H2 ltac:(discriminate)) as R2.
    pose proof (H 3 H3 ltac:(discriminate)) as R3.
    vm_compute in R2, R3.
    first [discriminate R2 | discriminate R3].
Qed.

(** C5 (amended) -- When the producer [p] raises the exception [e],
    nothing is put in its place. An invalidation of a name served by
    [p] lets [e] escape from [add_update] and queues nothing: the state
    is as before. A command served by [p], wherever it comes in the
    session, gets no reply: after the replies to the commands before it
    the catch-all of the read loop swallows [e], the loop ends
    normally, the commands after it are not read, and the client is
    unregistered; the update queue is untouched. A tick that starts
    after that and only meets closed connections brings every other
    registered client every queued frame its socket takes. *)
Theorem producer_failure_is_not_replaced
  (w : World) (p : World -> M Frame) (e : exn) (s : Sys) :
  outcome (p w) = inl e ->
  is_Exception e = true ->
  (forall type,
      update_producer type = Some p ->
      add_update w type s = (inl e, s))
  /\ (forall c earlier command later closing,
        command_producer (lower command) = Some p ->
        length (answers w c earlier) = length earlier ->
        let s1 :=
          add_wire (answer_writes w c earlier) (came_and_went c s) in
        consumer_handler w c (earlier ++ command :: later) closing s
        = (inr tt, s1)
        /\ updates (websocket_handler s1) = updates (websocket_handler s)
        /\ (only_closures w s1 = true ->
            forall c', c' <> c -> c' ∈ clients (websocket_handler s) ->
              received c' (wire (snd (producer_tick w s1)))
              = received c' (wire s)
                ++ deliverable w c' (updates (websocket_handler s)))).
Proof.
  intros He Hexc. split.
  - intros type Hp. rewrite add_update_eq. unfold snapshot.
    rewrite Hp, He. reflexivity.
  - intros c earlier command later closing Hp Hlen s1.
    assert (command_reply w command = inl e) as Hreply
      by (unfold command_reply; rewrite Hp; exact He).
    split; [|split].
    + rewrite consumer_handler_eq.
      rewrite (loop_exit_cut w c earlier later command e closing Hreply).
      rewrite (loop_exit_answered w c earlier e Hlen), Hexc.
      unfold answer_writes.
      rewrite (answers_cut w c earlier later command e Hreply).
      reflexivity.
    + reflexivity.
    + intros Hcl c' Hne Hc'.
      rewrite producer_tick_received by exact Hcl. unfold s1. simpl.
      rewrite received_app, received_answer_writes_other by exact Hne.
      rewrite app_nil_r.
      rewrite decide_True; [reflexivity|].
      rewrite elem_of_difference, elem_of_union, elem_of_singleton.
      tauto.
Qed.

Lemma producer_failure_is_not_replaced_witness :
  add_update world_trainer_fails "trainer" three_clients
  = (inl (OtherError "RuntimeError"), three_clients)
  /\ consumer_handler world_trainer_fails 2 (["party"] ++ "TR" :: ["stats"])
       ConnectionClosed three_clients
     = (inr tt,
        add_wire (answer_writes world_trainer_fails 2 ["party"])
          (came_and_went 2 three_clients))
  /\ received 1
       (wire (snd (producer_tick world_trainer_fails
                     (add_wire (answer_writes world_trainer_fails 2 ["party"])
                        (came_and_went 2 three_clients)))))
     = [Some frame_a; Some frame_b].
Proof.
  destruct (producer_failure_is_not_replaced world_trainer_fails
              get_trainer (OtherError "RuntimeError") three_clients
              eq_refl eq_refl) as [Hadd Hcmd].
  split; [apply Hadd; reflexivity|].
  destruct (Hcmd 2 ["party"] "TR" ["stats"] ConnectionClosed
              eq_refl eq_refl) as (Hloop & _ & Htick).
  split; [exact Hloop|].
  apply (Htick eq_refl 1); [discriminate|].
  apply (bool_decide_unpack _). vm_compute. exact I.
Defined.

(** ** C6: removing a client *)

(** [set.remove] on the empty registry raises [KeyError]. *)
Lemma remove_absent_raises : ~ remove_absent_is_noop 7 fresh.
Proof.
  intros H. assert (remove_client 7 fresh = (inr tt, fresh)) as Hr.
  { apply H. simpl. set_solver. }
  vm_compute in Hr. discriminate Hr.
Qed.

(** C6 (amended) -- [remove_client(c)] for a client that is not in the
    set raises [KeyError] and leaves the set as it was; after
    [add_client(c)] followed by [remove_client(c)], neither of which
    raises, the set returned by [get_clients()] does not contain [c]. *)
Theorem remove_client_absent_raises (c : client) (s : Sys) :
  (c ∉ clients (websocket_handler s) ->
   remove_client c s = (inl KeyError, s))
  /\ exists cs s',
       (add_client c ;; remove_client c ;; get_clients) s = (inr cs, s')
       /\ c ∉ cs.
Proof.
  split.
  - intros Hc. unfold remove_client, bind, get_sys.
    rewrite decide_False by exact Hc. reflexivity.
  - unfold bind, add_client, remove_client, get_clients, get_sys, modify,
      bind, ret. simpl.
    rewrite decide_True by set_solver. simpl.
    eexists _, _. split; [reflexivity|]. apply not_elem_of_removed.
Qed.

Lemma remove_client_absent_raises_witness :
  remove_client 7 three_clients = (inl KeyError, three_clients)
  /\ exists cs s',
       (add_client 7 ;; remove_client 7 ;; get_clients) three_clients
       = (inr cs, s')
       /\ 7 ∉ cs.
Proof.
  destruct (remove_client_absent_raises 7 three_clients) as [Habsent Hpair].
  split; [|exact Hpair].
  apply Habsent. apply (bool_decide_unpack _). vm_compute. exact I.
Defined.

(** ** C8: commands are matched without regard to case *)

Lemma lower_ascii_idem (c : ascii) : lower_ascii (lower_ascii c) = lower_ascii c.
Proof. destruct c as [[] [] [] [] [] [] [] []]; reflexivity. Qed.

Lemma lower_idem (s : string) : lower (lower s) = lower s.
Proof.
  induction s as [|c s IH]; simpl; [reflexivity|].
  rewrite lower_ascii_idem, IH. reflexivity.
Qed.

Lemma get_party_frame_type w s :
  match fst (get_party_frame w s) with
  | inr f => ftype f = "party"
  | inl _ => True
  end.
Proof.
  unfold get_party_frame, bind, lift, ret.
  destruct (get_party w) as [e|party]; simpl; [exact I|].
  destruct (res_all party); simpl; [exact I|reflexivity].
Qed.

(** C8 -- The read loop lower-cases a command before matching it, so a
    command and its lower-case form are served in exactly the same way
    (same result, same state, same frame); ["PARTY"], ["party"] and the
    alias ["pa"] are all served by [get_party], and whatever frame that
    step writes has type ["party"]. *)
Theorem command_match_ignores_case (w : World) (c : client) (s : Sys) :
  (forall command,
      consumer_step w c command s = consumer_step w c (lower command) s)
  /\ consumer_step w c "PARTY" s = consumer_step w c "party" s
  /\ consumer_step w c "pa" s = consumer_step w c "party" s
  /\ consumer_step w c "party" s
     = (let* f := get_party_frame w in websocket_send_msg w c (Some f)) s
  /\ Forall (fun m => exists f, m = Some f /\ ftype f = "party")
       (replies w c "party" s).
Proof.
  split.
  { intros command. unfold consumer_step. rewrite lower_idem. reflexivity. }
  split; [reflexivity|]. split; [reflexivity|]. split; [reflexivity|].
  unfold replies.
  change (consumer_step w c "party" s)
    with ((let* f := get_party_frame w in
           websocket_send_msg w c (Some f)) s).
  unfold bind.
  pose proof (get_party_frame_type w s) as Ht.
  pose proof (command_producers_read_only w "party" get_party_frame
                eq_refl s) as Hs.
  rewrite Hs in Ht |- *. simpl in Ht.
  destruct (outcome (get_party_frame w)) as [e|f].
  - simpl. rewrite drop_all. constructor.
  - unfold websocket_send_msg, bind, lift, modify.
    destruct (websocket_send w c (Some f)) as [e|[]]; simpl.
    + rewrite drop_all. constructor.
    + rewrite received_app, drop_app_length.
      unfold received. simpl. rewrite Nat.eqb_refl. simpl.
      constructor; [|constructor]. exists f. split; [reflexivity|exact Ht].
Qed.

Example party_in_any_case :
  replies calm_world 1 "PARTY" fresh
  = [Some (mkFrame "party" (JArr [JStr "Torchic"]))]
  /\ replies calm_world 1 "Pa" fresh
     = [Some (mkFrame "party" (JArr [JStr "Torchic"]))].
Proof. vm_compute. split; reflexivity. Qed.

(** ** C9: lookups leave the update queue alone *)

Lemma websocket_send_msg_handler w c m s :
  websocket_handler (snd (websocket_send_msg w c m s))
  = websocket_handler s.
Proof.
  unfold websocket_send_msg, bind, lift, modify.
  destruct (websocket_send w c m) as [e|[]]; reflexivity.
Qed.

Lemma consumer_step_handler w c command s :
  websocket_handler (snd (consumer_step w c command s))
  = websocket_handler s.
Proof.
  rewrite consumer_step_table.
  destruct (command_producer (lower command)) as [p|] eqn:Hp.
  - unfold bind. rewrite (command_producers_read_only w _ p Hp s).
    destruct (outcome (p w)) as [e|f]; [reflexivity|].
    apply websocket_send_msg_handler.
  - reflexivity.
Qed.

Lemma consumer_loop_handler w c inbound closing :
  forall s,
    websocket_handler (snd (consumer_loop w c inbound closing s))
    = websocket_handler s.
Proof.
  induction inbound as [|command inbound IH]; intros s; simpl.
  - reflexivity.
  - unfold bind.
    pose proof (consumer_step_handler w c command s) as Hstep.
    destruct (consumer_step w c command s) as [[e|[]] s1]; simpl in *.
    + exact Hstep.
    + rewrite IH. exact Hstep.
Qed.

Lemma consumer_handler_updates w c inbound closing s :
  updates (websocket_handler (snd (consumer_handler w c inbound closing s)))
  = updates (websocket_handler s).
Proof. rewrite consumer_handler_eq. reflexivity. Qed.

Ltac endpoint_reads_only :=
  unfold http_get_trainer, http_get_bag, http_get_party,
    http_get_encounter_log, http_get_shiny_log, http_get_encounter_rate,
    http_get_stats, http_get_event_flags, http_get_emulator, http_get_fps;
  reads_only_tac.

Lemma reads_only_snd {A} (m : M A) s : reads_only m -> snd (m s) = s.
Proof. intros H. rewrite (H s). reflexivity. Qed.

(** C9 -- No on-demand lookup touches the update queue. A step of the
    read loop of a push client, and a whole run of that loop from
    connect to disconnect, leave the [updates] list exactly as it was
    (same entries, same order), whatever the command and whether or not
    the step raises; every pull endpoint leaves the whole state as it
    was. *)
Theorem lookups_leave_queue_alone (w : World) (s : Sys) :
  (forall c command,
      updates (websocket_handler (snd (consumer_step w c command s)))
      = updates (websocket_handler s))
  /\ (forall c inbound closing,
        updates (websocket_handler
                   (snd (consumer_handler w c inbound closing s)))
        = updates (websocket_handler s))
  /\ snd (http_get_trainer w s) = s
  /\ snd (http_get_bag w s) = s
  /\ snd (http_get_party w s) = s
  /\ snd (http_get_encounter_log w s) = s
  /\ snd (http_get_shiny_log w s) = s
  /\ snd (http_get_encounter_rate w s) = s
  /\ snd (http_get_stats w s) = s
  /\ snd (http_get_event_flags w s) = s
  /\ snd (http_get_emulator w s) = s
  /\ snd (http_get_fps w s) = s.
Proof.
  split.
  { intros c command. rewrite consumer_step_handler. reflexivity. }
  split.
  { intros c inbound closing. apply consumer_handler_updates. }
  repeat split; apply reads_only_snd; endpoint_reads_only.
Qed.

(** A trainer frame is queued; a push client asks for the trainer and a
    pull client fetches it; the queue still holds exactly that frame and
    the next tick broadcasts it. *)
Example lookup_beside_queued_broadcast :
  let s1 := snd (add_update calm_world "trainer"
                   (set_clients {[1; 2]} fresh)) in
  let s2 := snd (consumer_step calm_world 1 "trainer" s1) in
  let s3 := snd (http_get_trainer calm_world s2) in
  updates (websocket_handler s3) = updates (websocket_handler s1)
  /\ length (updates (websocket_handler s3)) = 1
  /\ received 2 (wire (snd (producer_tick calm_world s3)))
     = updates (websocket_handler s1).
Proof. vm_compute. repeat split. Qed.

(** ** C10: [None] entries are never written *)

Lemma for_each_send_writes w m (cs : list client) :
  forall s, exists tr,
    snd (for_each cs (fun c => send w c m) s) = add_wire tr s
    /\ Forall (fun p => snd p = m) tr.
Proof.
  induction cs as [|c cs IH]; intros s; simpl.
  - exists []. rewrite add_wire_nil. split; [reflexivity|constructor].
  - unfold bind. rewrite send_eq.
    destruct (websocket_send w c m) as [e|[]].
    + destruct e; simpl;
        try (exists []; rewrite add_wire_nil;
             split; [reflexivity|constructor]).
      apply IH.
    + destruct (IH (log_write c m s)) as (tr & Htr & Hall).
      exists ((c, m) :: tr). rewrite Htr. split.
      * unfold add_wire, log_write. simpl. rewrite <- app_assoc.
        reflexivity.
      * constructor; [reflexivity|exact Hall].
Qed.

Lemma fan_out_writes w m s :
  exists tr,
    snd (fan_out w m s) = add_wire tr s
    /\ Forall (fun p => is_frame (snd p) = true) tr.
Proof.
  destruct m as [f|]; simpl.
  - unfold bind, get_clients, get_sys, ret. simpl.
    destruct (for_each_send_writes w (Some f)
                (elements (clients (websocket_handler s))) s)
      as (tr & Htr & Hall).
    exists tr. split; [exact Htr|].
    eapply Forall_impl; [exact Hall|]. intros p ->. reflexivity.
  - exists []. rewrite add_wire_nil. split; [reflexivity|constructor].
Qed.

Lemma fifo_broadcast_writes w (q : list entry) :
  forall s, exists tr,
    snd (fifo_broadcast w q s) = add_wire tr s
    /\ Forall (fun p => is_frame (snd p) = true) tr.
Proof.
  induction q as [|m q IH]; intros s; simpl.
  - exists []. rewrite add_wire_nil. split; [reflexivity|constructor].
  - unfold bind.
    destruct (fan_out_writes w m s) as (tr1 & Htr1 & Hall1).
    destruct (fan_out w m s) as [[e|[]] s1]; simpl in Htr1; subst s1.
    + exists tr1. split; [reflexivity|exact Hall1].
    + destruct (IH (add_wire tr1 s)) as (tr2 & Htr2 & Hall2).
      exists (tr1 ++ tr2). rewrite Htr2, add_wire_add_wire.
      split; [reflexivity|]. apply Forall_app. split; assumption.
Qed.

Lemma fifo_broadcast_snoc_None w (q : list entry) :
  forall s, fifo_broadcast w (q ++ [None]) s = fifo_broadcast w q s.
Proof.
  induction q as [|m q IH]; intros s; simpl.
  - reflexivity.
  - unfold bind. destruct (fan_out w m s) as [[e|[]] s1];
      [reflexivity|apply IH].
Qed.

(** C10 -- Whatever the world and the state, every write that a
    broadcast tick adds to the wire carries a frame, never [None]: the
    loop skips the entries equal to [None] before the fan-out. So an
    invalidation with an unrecognised name, which only queues [None], is
    delivered to nobody: a tick after it does exactly what the tick
    would have done without it. *)
Theorem None_is_never_written (w : World) (s : Sys) :
  (exists tr,
      wire (snd (producer_tick w s)) = wire s ++ tr
      /\ Forall (fun p => is_frame (snd p) = true) tr)
  /\ (forall w' type,
        type ∉ recognised_updates ->
        (add_update w' type ;; producer_tick w) s = producer_tick w s).
Proof.
  split.
  - rewrite producer_tick_fifo. unfold fifo_tick, drainAll, bind.
    destruct (fifo_broadcast_writes w (updates (websocket_handler s))
                (set_updates [] s)) as (tr & Htr & Hall).
    exists tr. rewrite Htr. split; [reflexivity|exact Hall].
  - intros w' type Htype. unfold bind at 1.
    rewrite add_update_eq. unfold snapshot.
    rewrite (update_producer_unknown type Htype).
    rewrite !producer_tick_fifo. unfold fifo_tick, drainAll, bind. simpl.
    rewrite fifo_broadcast_snoc_None. reflexivity.
Qed.

Lemma None_is_never_written_witness :
  (exists tr,
      wire (snd (producer_tick world_2_closed three_clients)) = [] ++ tr
      /\ Forall (fun p => is_frame (snd p) = true) tr)
  /\ (add_update calm_world "bogus" ;; producer_tick world_2_closed)
       three_clients
     = producer_tick world_2_closed three_clients.
Proof.
  destruct (None_is_never_written world_2_closed three_clients)
    as [Hwire Hskip].
  split; [exact Hwire|].
  apply (Hskip calm_world "bogus").
  apply (bool_decide_unpack _). vm_compute. exact I.
Defined.

(** * Further properties of the hub *)

(** ** The queue and the registry *)

(** X1 -- [get_updates()] is destructive: of two calls in a row with no
    [add_update] in between, the first returns every queued entry and
    the second returns the empty list; registry and wire are not
    touched. *)
Theorem get_updates_twice (s : Sys) :
  (let* first := get_updates in
   let* second := get_updates in
   ret (first, second)) s
  = (inr (rev (updates (websocket_handler s)), []), set_updates [] s).
Proof.
  unfold bind. rewrite get_updates_spec, get_updates_spec. reflexivity.
Qed.

Lemma set_clients_same s : set_clients (clients (websocket_handler s)) s = s.
Proof. destruct s as [[q cs] tr]. reflexivity. Qed.

(** X2 -- The registry behaves as a set: adding a client twice is the
    same as adding it once; adding an absent client and removing it
    again restores the state exactly, as does removing a registered
    client and adding it again; and neither operation changes whether
    any other client is registered. *)
Theorem registry_round_trip (c : client) (s : Sys) :
  (add_client c ;; add_client c) s = add_client c s
  /\ (c ∉ clients (websocket_handler s) ->
      (add_client c ;; remove_client c) s = (inr tt, s))
  /\ (c ∈ clients (websocket_handler s) ->
      (remove_client c ;; add_client c) s = (inr tt, s))
  /\ forall c', c' <> c ->
       (c' ∈ clients (websocket_handler (snd (add_client c s)))
        <-> c' ∈ clients (websocket_handler s))
       /\ (c' ∈ clients (websocket_handler (snd (remove_client c s)))
           <-> c' ∈ clients (websocket_handler s)).
Proof.
  split; [|split; [|split]].
  - unfold bind. rewrite !add_client_eq. unfold set_clients. simpl.
    do 3 f_equal. apply set_eq. intros x.
    rewrite !elem_of_union. tauto.
  - intros Hc. unfold bind. rewrite add_client_eq.
    rewrite remove_client_present
      by (apply elem_of_union_l, elem_of_singleton_2; reflexivity).
    unfold set_clients. simpl.
    replace (({[c]} ∪ clients (websocket_handler s)) ∖ {[c]})
      with (clients (websocket_handler s)).
    + destruct s as [[q cs] tr]. reflexivity.
    + apply set_eq. intros x.
      rewrite elem_of_difference, elem_of_union, elem_of_singleton.
      destruct (decide (x = c)) as [->|Hne]; tauto.
  - intros Hc. unfold bind.
    rewrite remove_client_present by exact Hc. rewrite add_client_eq.
    unfold set_clients. simpl.
    replace ({[c]} ∪ clients (websocket_handler s) ∖ {[c]})
      with (clients (websocket_handler s)).
    + destruct s as [[q cs] tr]. reflexivity.
    + apply set_eq. intros x.
      rewrite elem_of_union, elem_of_difference, elem_of_singleton.
      destruct (decide (x = c)) as [->|Hne]; tauto.
  - intros c' Hne. split.
    + rewrite add_client_eq. simpl.
      rewrite elem_of_union, elem_of_singleton. tauto.
    + destruct (decide (c ∈ clients (websocket_handler s))) as [Hc|Hc].
      * rewrite remove_client_present by exact Hc. simpl.
        rewrite elem_of_difference, elem_of_singleton. tauto.
      * rewrite remove_client_absent by exact Hc. reflexivity.
Qed.

Lemma registry_round_trip_witness :
  (add_client 7 ;; remove_client 7) three_clients = (inr tt, three_clients)
  /\ (remove_client 2 ;; add_client 2) three_clients
     = (inr tt, three_clients).
Proof.
  split.
  - apply (registry_round_trip 7 three_clients).
    apply (bool_decide_unpack _). vm_compute. exact I.
  - apply (registry_round_trip 2 three_clients).
    apply (bool_decide_unpack _). vm_compute. exact I.
Defined.

(** ** The broadcast tick, whether or not it is aborted *)

Lemma accepted_cons w m c (cs : list client) :
  accepted w m (c :: cs)
  = (if accepts w c m then [(c, m)] else []) ++ accepted w m cs.
Proof. unfold accepted. simpl. destruct (accepts w c m); reflexivity. Qed.

Lemma for_each_send_prefix w m (cs : list client) :
  forall s, exists tr,
    snd (for_each cs (fun c => send w c m) s) = add_wire tr s
    /\ tr `prefix_of` accepted w m cs
    /\ (fst (for_each cs (fun c => send w c m) s) = inr tt ->
        tr = accepted w m cs).
Proof.
  induction cs as [|c cs IH]; intros s.
  - exists []. simpl. rewrite add_wire_nil.
    split; [reflexivity|split; [apply prefix_nil|intros _; reflexivity]].
  - simpl. unfold bind. rewrite send_eq, accepted_cons. unfold accepts.
    destruct (websocket_send w c m) as [e|[]].
    + destruct e; simpl;
        try (exists []; rewrite add_wire_nil;
             split; [reflexivity|split; [apply prefix_nil|discriminate]]).
      apply IH.
    + destruct (IH (log_write c m s)) as (tr & Htr & Hpre & Hall).
      exists ((c, m) :: tr). rewrite Htr. split; [|split].
      * unfold add_wire, log_write. simpl. rewrite <- app_assoc.
        reflexivity.
      * simpl. apply prefix_cons, Hpre.
      * intros Hok. simpl. f_equal. apply Hall, Hok.
Qed.

Lemma tick_writes_cons w cs m q :
  tick_writes w cs (m :: q)
  = (if is_frame m then accepted w m cs else []) ++ tick_writes w cs q.
Proof. unfold tick_writes. destruct m; reflexivity. Qed.

Lemma fifo_broadcast_prefix w (q : list entry) :
  forall s, exists tr,
    snd (fifo_broadcast w q s) = add_wire tr s
    /\ tr `prefix_of`
         tick_writes w (elements (clients (websocket_handler s))) q.
Proof.
  induction q as [|m q IH]; intros s.
  - exists []. simpl. rewrite add_wire_nil. split; [reflexivity|].
    apply prefix_nil.
  - simpl. rewrite tick_writes_cons. unfold bind.
    destruct m as [f|]; simpl.
    + unfold get_clients, get_sys, bind, ret.
      destruct (for_each_send_prefix w (Some f)
                  (elements (clients (websocket_handler s))) s)
        as (tr1 & Htr1 & Hpre1 & Hall1).
      destruct (for_each _ _ s) as [[e|[]] s1]; simpl in *; subst s1.
      * exists tr1. split; [reflexivity|].
        apply prefix_app_r, Hpre1.
      * rewrite Hall1 by reflexivity.
        destruct (IH (add_wire (accepted w (Some f)
                                  (elements (clients (websocket_handler s))))
                        s)) as (tr2 & Htr2 & Hpre2).
        exists (accepted w (Some f)
                  (elements (clients (websocket_handler s))) ++ tr2).
        rewrite Htr2, add_wire_add_wire. split; [reflexivity|].
        apply prefix_app, Hpre2.
    + unfold ret. apply IH.
Qed.

Lemma producer_tick_prefix w s :
  exists tr,
    snd (producer_tick w s) = add_wire tr (set_updates [] s)
    /\ tr `prefix_of`
         tick_writes w (elements (clients (websocket_handler s)))
           (updates (websocket_handler s)).
Proof.
  rewrite producer_tick_fifo. unfold fifo_tick, drainAll, bind.
  apply (fifo_broadcast_prefix w (updates (websocket_handler s))
           (set_updates [] s)).
Qed.

Lemma received_prefix c (t1 t2 : list (client * entry)) :
  t1 `prefix_of` t2 -> received c t1 `prefix_of` received c t2.
Proof.
  intros [k ->]. rewrite received_app. apply prefix_app_r. reflexivity.
Qed.

Lemma producer_tick_received_prefix (w : World) (s : Sys) :
  exists tr,
    snd (producer_tick w s) = add_wire tr (set_updates [] s)
    /\ forall c,
         received c tr
         `prefix_of`
         (if decide (c ∈ clients (websocket_handler s))
          then deliverable w c (updates (websocket_handler s)) else []).
Proof.
  destruct (producer_tick_prefix w s) as (tr & Htr & Hpre).
  exists tr. split; [exact Htr|]. intros c.
  apply (received_prefix c) in Hpre.
  rewrite received_tick_writes in Hpre by apply NoDup_elements.
  destruct (decide (c ∈ clients (websocket_handler s))) as [Hc|Hc];
    destruct (decide (c ∈ elements (clients (websocket_handler s))))
      as [Hc'|Hc']; try exact Hpre;
    rewrite elem_of_elements in Hc'; contradiction.
Qed.


Lemma producer_tick_empty_queue w s :
  updates (websocket_handler s) = [] -> producer_tick w s = (inr tt, s).
Proof.
  intros Hq. rewrite producer_tick_fifo. unfold fifo_tick, drainAll, bind.
  rewrite Hq. simpl. unfold ret. rewrite <- Hq, set_updates_same.
  reflexivity.
Qed.

(** X4 -- A tick that finds the queue empty writes nothing and changes
    nothing. Since every tick leaves the queue empty, a tick that
    directly follows another tick, in whatever world, is such a tick:
    nothing is broadcast a second time. *)
Theorem producer_tick_on_empty_queue (w w' : World) (s : Sys) :
  (updates (websocket_handler s) = [] -> producer_tick w s = (inr tt, s))
  /\ producer_tick w' (snd (producer_tick w s))
     = (inr tt, snd (producer_tick w s)).
Proof.
  split; [apply producer_tick_empty_queue|].
  apply producer_tick_empty_queue.
  destruct (producer_tick_prefix w s) as (tr & -> & _). reflexivity.
Qed.

Lemma producer_tick_on_empty_queue_witness :
  producer_tick world_2_timeout (set_clients {[1; 2]} fresh)
  = (inr tt, set_clients {[1; 2]} fresh).
Proof.
  apply (producer_tick_on_empty_queue world_2_timeout calm_world).
  reflexivity.
Defined.

Lemma tick_writes_no_clients w (q : list entry) : tick_writes w [] q = [].
Proof.
  unfold tick_writes. induction q as [|[f|] q IH]; simpl;
    [reflexivity|exact IH|exact IH].
Qed.

(** X5 -- With no client registered a tick still drains the queue: the
    queued entries are dropped without any write and without an
    error. *)
Theorem producer_tick_without_clients (w : World) (s : Sys) :
  clients (websocket_handler s) = ∅ ->
  producer_tick w s = (inr tt, set_updates [] s).
Proof.
  intros Hcs. rewrite producer_tick_ok.
  - rewrite Hcs, elements_empty, tick_writes_no_clients, add_wire_nil.
    reflexivity.
  - unfold only_closures. rewrite Hcs, elements_empty.
    induction (updates (websocket_handler s)) as [|[f|] q IH]; simpl;
      [reflexivity|exact IH|exact IH].
Qed.

Lemma producer_tick_without_clients_witness :
  producer_tick world_2_timeout
    (mkSys (mkHandler [Some frame_a; None; Some frame_b] ∅) [])
  = (inr tt, mkSys (mkHandler [] ∅) []).
Proof.
  apply (producer_tick_without_clients world_2_timeout
           (mkSys (mkHandler [Some frame_a; None; Some frame_b] ∅) [])).
  reflexivity.
Defined.

(** X6 -- End to end: when [add_update(type)] on an empty queue queues
    the frame [f], the socket of every registered client works, and no
    other task runs while the next tick is suspended at its writes, then
    that tick ends normally with the queue empty and the registry as it
    was, and every registered client has received exactly one copy of
    [f]. The worlds of the invalidation and of the tick may differ. *)
Theorem enqueue_then_tick
  (w1 w2 : World) (type : string) (f : Frame) (s : Sys) :
  updates (websocket_handler s) = [] ->
  snapshot w1 type = inr (Some f) ->
  (forall c, c ∈ clients (websocket_handler s) ->
     websocket_send w2 c (Some f) = inr tt) ->
  exists s',
    (add_update w1 type ;; producer_tick_live w2 []) s = (inr tt, s')
    /\ updates (websocket_handler s') = []
    /\ clients (websocket_handler s') = clients (websocket_handler s)
    /\ forall c, c ∈ clients (websocket_handler s) ->
         received c (wire s') = received c (wire s) ++ [Some f].
Proof.
  intros Hq Hsnap Hok. unfold bind. rewrite add_update_eq, Hsnap, Hq.
  simpl.
  assert (only_closures w2 (set_updates [Some f] s) = true) as Hcl.
  { unfold only_closures. simpl. rewrite andb_true_r.
    apply forallb_forall. intros c Hc.
    apply list_elem_of_In, elem_of_elements in Hc.
    rewrite (Hok c Hc). reflexivity. }
  destruct (producer_tick_closed_only w2 (set_updates [Some f] s) Hcl)
    as (s' & Htick & Hcs & Hqs & Hrec).
  exists s'. split; [exact Htick|]. split; [exact Hqs|].
  split; [exact Hcs|]. intros c Hc. rewrite (Hrec c Hc). simpl.
  unfold deliverable, accepts. simpl. rewrite (Hok c Hc). reflexivity.
Qed.

Lemma enqueue_then_tick_witness :
  exists s',
    (add_update calm_world "stats" ;; producer_tick_live calm_world [])
      (set_clients {[1; 2; 3]} fresh) = (inr tt, s')
    /\ updates (websocket_handler s') = []
    /\ clients (websocket_handler s')
       = clients (websocket_handler (set_clients {[1; 2; 3]} fresh))
    /\ forall c,
         c ∈ clients (websocket_handler (set_clients {[1; 2; 3]} fresh)) ->
         received c (wire s')
         = received c (wire (set_clients {[1; 2; 3]} fresh))
           ++ [Some (mkFrame "stats" (JObj []))].
Proof.
  apply (enqueue_then_tick calm_world calm_world "stats"
           (mkFrame "stats" (JObj [])) (set_clients {[1; 2; 3]} fresh)).
  - reflexivity.
  - reflexivity.
  - intros c _. reflexivity.
Defined.

(** ** The read loop of a connection, from connect to disconnect *)

(** X7 -- However a connection's read loop ends, [consumer_handler]
    leaves with the client unregistered, the registration of the other
    clients and the update queue untouched. An exception of class
    [Exception] that ends the loop (a closed connection, an unknown
    command, a failing producer or write) is swallowed and the handler
    returns normally; [CancelledError], which [except Exception] does not
    catch, leaves the handler after the [finally]. What the handler has
    written are the replies to the commands that precede the first
    command whose branch or whose write raised, in order, to its own
    socket; it writes nothing to any other client. *)
Theorem consumer_handler_runs_to_unregister
  (w : World) (c : client) (inbound : list string) (closing : exn)
  (s : Sys) :
  exists s',
    consumer_handler w c inbound closing s
    = (if is_Exception (loop_exit w c inbound closing) then inr tt
       else inl (loop_exit w c inbound closing), s')
    /\ (c ∉ clients (websocket_handler s'))
    /\ (forall c', c' <> c ->
          (c' ∈ clients (websocket_handler s')
           <-> c' ∈ clients (websocket_handler s))
          /\ received c' (wire s') = received c' (wire s))
    /\ updates (websocket_handler s') = updates (websocket_handler s)
    /\ received c (wire s')
       = received c (wire s) ++ map Some (answers w c inbound).
Proof.
  eexists. split; [apply consumer_handler_eq|]. simpl.
  split; [apply not_elem_of_removed|]. split; [|split].
  - intros c' Hne. split.
    + rewrite elem_of_difference, elem_of_union, elem_of_singleton. tauto.
    + rewrite received_app, received_answer_writes_other by exact Hne.
      apply app_nil_r.
  - reflexivity.
  - rewrite received_app, received_answer_writes_own. reflexivity.
Qed.

Lemma consumer_handler_runs_to_unregister_witness :
  (exists s',
     consumer_handler calm_world 1 ["party"; "hello"; "stats"]
       ConnectionClosed three_clients = (inr tt, s')
     /\ (1 ∉ clients (websocket_handler s'))
     /\ (2 ∈ clients (websocket_handler s')
         <-> 2 ∈ clients (websocket_handler three_clients))
     /\ received 2 (wire s') = received 2 (wire three_clients)
     /\ received 1 (wire s')
        = [Some (mkFrame "party" (JArr [JStr "Torchic"]))])
  /\ (exists s',
        consumer_handler calm_world 1 ["party"] CancelledError
          three_clients = (inl CancelledError, s')
        /\ (1 ∉ clients (websocket_handler s'))).
Proof.
  split.
  - destruct (consumer_handler_runs_to_unregister calm_world 1
                ["party"; "hello"; "stats"] ConnectionClosed three_clients)
      as (s' & Hrun & Hgone & Hothers & _ & Hown).
    exists s'. split; [exact Hrun|]. split; [exact Hgone|].
    destruct (Hothers 2) as [Hreg Hrec]; [discriminate|].
    split; [exact Hreg|]. split; [exact Hrec|exact Hown].
  - destruct (consumer_handler_runs_to_unregister calm_world 1
                ["party"] CancelledError three_clients)
      as (s' & Hrun & Hgone & _).
    exists s'. split; [exact Hrun|exact Hgone].
Defined.

(** X8 -- A command whose branch raises (an unknown command, or one
    whose producer fails) ends the session at that point: the commands
    that follow it are never answered, and the outcome is the same as
    if, instead of delivering that command, [recv()] had raised the
    exception of the branch. For an unknown command that is an
    [AttributeError], so the session ends as on any disconnect that
    raises an [Exception]. *)
Theorem failing_command_ends_session
  (w : World) (c : client) (earlier later : list string)
  (command : string) (e closing : exn) (s : Sys) :
  command_reply w command = inl e ->
  consumer_handler w c (earlier ++ command :: later) closing s
  = consumer_handler w c earlier e s
  /\ (forall closing',
        is_Exception e = true -> is_Exception closing' = true ->
        consumer_handler w c (earlier ++ command :: later) closing s
        = consumer_handler w c earlier closing' s).
Proof.
  intros He.
  assert (consumer_handler w c (earlier ++ command :: later) closing s
          = consumer_handler w c earlier e s) as Hcut.
  { rewrite !consumer_handler_eq. unfold answer_writes.
    rewrite (answers_cut w c earlier later command e He).
    rewrite (loop_exit_cut w c earlier later command e closing He).
    reflexivity. }
  split; [exact Hcut|]. intros closing' Hexc Hexc'. rewrite Hcut.
  rewrite !consumer_handler_eq. f_equal.
  clear Hcut. induction earlier as [|b earlier IH]; simpl.
  - rewrite Hexc, Hexc'. reflexivity.
  - destruct (command_reply w b) as [e'|f]; [reflexivity|].
    destruct (websocket_send w c (Some f)); [reflexivity|exact IH].
Qed.

Lemma failing_command_ends_session_witness :
  consumer_handler calm_world 1 (["party"] ++ "hello" :: ["stats"; "fps"])
    ConnectionClosed three_clients
  = consumer_handler calm_world 1 ["party"] AttributeError three_clients
  /\ consumer_handler calm_world 1
       (["party"] ++ "hello" :: ["stats"; "fps"])
       ConnectionClosed three_clients
     = consumer_handler calm_world 1 ["party"] ConnectionClosed
         three_clients.
Proof.
  destruct (failing_command_ends_session calm_world 1 ["party"]
              ["stats"; "fps"] "hello" AttributeError ConnectionClosed
              three_clients eq_refl) as [Hcut Hany].
  split; [exact Hcut|]. apply Hany; reflexivity.
Defined.

(** ** Push frames and pull responses *)

Ltac crush_producers :=
  unfold outcome, get_trainer, get_encounter_log, get_items_frame,
    get_party_frame, get_shiny_log, get_encounter_rate, get_stats,
    get_event_flags, get_emulator, get_fps, http_get_trainer,
    http_get_bag, http_get_party, http_get_encounter_log,
    http_get_shiny_log, http_get_encounter_rate, http_get_stats,
    http_get_event_flags, http_get_emulator, http_get_fps,
    bind, lift, ret, res_map;
  simpl;
  repeat match goal with
         | |- context [match ?x with _ => _ end] => destruct x; simpl
         end;
  try reflexivity.

(** X9 -- For the trainer, the items, the party, the encounter log, the
    shiny log, the encounter rate, the statistics, the event flags and
    the frame rates, the push side and the pull side agree in every
    world: the frame that the websocket side builds is the pull
    response wrapped with its type, and when one raises the other raises
    the same exception. *)
Theorem push_and_pull_agree (w : World) :
  outcome (get_trainer w)
  = res_map (fun d => prep_data d "trainer") (outcome (http_get_trainer w))
  /\ outcome (get_items_frame w)
     = res_map (fun d => prep_data d "items") (outcome (http_get_bag w))
  /\ outcome (get_party_frame w)
     = res_map (fun d => prep_data d "party") (outcome (http_get_party w))
  /\ outcome (get_encounter_log w)
     = res_map (fun d => prep_data d "encounter_log")
         (outcome (http_get_encounter_log w))
  /\ outcome (get_shiny_log w)
     = res_map (fun d => prep_data d "shiny_log")
         (outcome (http_get_shiny_log w))
  /\ outcome (get_encounter_rate w)
     = res_map (fun d => prep_data d "encounter_rate")
         (outcome (http_get_encounter_rate w))
  /\ outcome (get_stats w)
     = res_map (fun d => prep_data d "stats") (outcome (http_get_stats w))
  /\ outcome (get_event_flags w)
     = res_map (fun d => prep_data d "flags")
         (outcome (http_get_event_flags w))
  /\ outcome (get_fps w)
     = res_map (fun d => prep_data d "fps") (outcome (http_get_fps w)).
Proof. repeat split; crush_producers. Qed.

(** X10 -- While no emulator is attached ([context.emulator is None]),
    the emulator and frame-rate producers do not consult the context:
    whatever [context.to_dict()] or the performance tracker would do,
    an ["emulator"] or ["fps"] invalidation queues a frame of that type
    with null data, the commands [emulator], [em], [emu] and [fps], in
    any letter case, are answered with it, and both pull endpoints
    answer null. *)
Theorem absent_emulator_gives_null (w : World) :
  context_emulator_is_None w = true ->
  snapshot w "emulator" = inr (Some (mkFrame "emulator" JNull))
  /\ snapshot w "fps" = inr (Some (mkFrame "fps" JNull))
  /\ (forall command,
        lower command ∈ ["emulator"; "em"; "emu"] ->
        command_reply w command = inr (mkFrame "emulator" JNull))
  /\ (forall command,
        lower command = "fps" ->
        command_reply w command = inr (mkFrame "fps" JNull))
  /\ outcome (http_get_emulator w) = inr JNull
  /\ outcome (http_get_fps w) = inr JNull.
Proof.
  intros Hnone.
  assert (outcome (get_emulator w) = inr (mkFrame "emulator" JNull)) as He
    by (unfold outcome, get_emulator; rewrite Hnone; reflexivity).
  assert (outcome (get_fps w) = inr (mkFrame "fps" JNull)) as Hf
    by (unfold outcome, get_fps; rewrite Hnone; reflexivity).
  split; [unfold snapshot; simpl; rewrite He; reflexivity|].
  split; [unfold snapshot; simpl; rewrite Hf; reflexivity|].
  split; [|split; [|split]].
  - intros command Hc. unfold command_reply.
    repeat (apply elem_of_cons in Hc as [->|Hc]; [exact He|]).
    apply elem_of_nil in Hc as [].
  - intros command Hc. unfold command_reply. rewrite Hc. exact Hf.
  - unfold outcome, http_get_emulator. rewrite Hnone. reflexivity.
  - unfold outcome, http_get_fps. rewrite Hnone. reflexivity.
Qed.

Lemma absent_emulator_gives_null_witness :
  snapshot world_no_emulator "emulator"
  = inr (Some (mkFrame "emulator" JNull))
  /\ command_reply world_no_emulator "EMU" = inr (mkFrame "emulator" JNull)
  /\ outcome (http_get_fps world_no_emulator) = inr JNull.
Proof.
  destruct (absent_emulator_gives_null world_no_emulator eq_refl)
    as (Hq & _ & Hcmd & _ & _ & Hfps).
  split; [exact Hq|]. split; [|exact Hfps].
  apply Hcmd. apply (bool_decide_unpack _). vm_compute. exact I.
Defined.

(** ** The event flags *)

Lemma dict_set_fresh k v (d : dict) :
  k ∉ map fst d -> dict_set k v d = d ++ [(k, v)].
Proof.
  induction d as [|[k' v'] d IH]; simpl; intros Hk; [reflexivity|].
  apply not_elem_of_cons in Hk as [Hne Hk].
  destruct (String.eqb_spec k k') as [->|_]; [contradiction|].
  rewrite IH by exact Hk. reflexivity.
Qed.

Lemma collect_event_flags_all w (v : string -> json) (flags : list string) :
  forall acc : dict,
    NoDup flags ->
    (forall f, f ∈ flags -> f ∉ map fst acc) ->
    (forall f, f ∈ flags -> get_event_flag w f = inr (v f)) ->
    collect_event_flags w flags acc
    = inr (acc ++ map (fun f => (f, v f)) flags).
Proof.
  induction flags as [|f flags IH]; intros acc Hnd Hacc Hv; simpl.
  - rewrite app_nil_r. reflexivity.
  - apply NoDup_cons in Hnd as [Hf Hnd].
    rewrite (Hv f) by (apply elem_of_cons; left; reflexivity). simpl.
    rewrite dict_set_fresh
      by (apply Hacc, elem_of_cons; left; reflexivity).
    rewrite IH.
    + rewrite <- app_assoc. reflexivity.
    + exact Hnd.
    + intros g Hg. rewrite map_app, elem_of_app. simpl.
      intros [Hin|Hin].
      * apply (Hacc g); [apply elem_of_cons; right; exact Hg|exact Hin].
      * apply list_elem_of_singleton in Hin. subst g. contradiction.
    + intros g Hg. apply Hv, elem_of_cons. right. exact Hg.
Qed.

Lemma existsb_eqb_elem (f : string) (l : list string) :
  existsb (String.eqb f) l = true <-> f ∈ l.
Proof.
  rewrite existsb_exists, list_elem_of_In. split.
  - intros (x & Hx & ->%String.eqb_eq). exact Hx.
  - intros Hf. exists f. split; [exact Hf|apply String.eqb_refl].
Qed.

(** X11 -- When every flag of the table can be read, a request for the
    event flags that names no flag, the empty flag or a flag that is not
    in the table is answered without error by the full listing: one
    entry per flag of the table, in the order of the table, with the
    value read for it. The push side builds the same listing into a
    frame of type ["flags"]. *)
Theorem event_flags_full_listing
  (w : World) (v : string -> json) (flag : option string) (s : Sys) :
  NoDup (event_flags w) ->
  (forall f, f ∈ event_flags w -> get_event_flag w f = inr (v f)) ->
  request_args_get_flag w = inr flag ->
  match flag with
  | Some f => f = "" \/ f ∉ event_flags w
  | None => True
  end ->
  http_get_event_flags w s
  = (inr (JObj (map (fun f => (f, v f)) (event_flags w))), s)
  /\ get_event_flags w s
     = (inr (prep_data (JObj (map (fun f => (f, v f)) (event_flags w)))
               "flags"), s).
Proof.
  intros Hnd Hv Hflag Hunknown.
  pose proof (collect_event_flags_all w v (event_flags w) [] Hnd
                (fun f _ H => proj1 (elem_of_nil _) H) Hv) as Hall.
  simpl in Hall.
  assert (match flag with
          | Some f => truthy flag && existsb (String.eqb f) (event_flags w)
          | None => false
          end = false) as Hcond.
  { destruct flag as [f|]; [|reflexivity]. simpl.
    destruct Hunknown as [->|Hf]; [reflexivity|].
    destruct (existsb (String.eqb f) (event_flags w)) eqn:E.
    - apply existsb_eqb_elem in E. contradiction.
    - apply andb_false_r. }
  unfold http_get_event_flags, get_event_flags, bind, lift, ret.
  rewrite Hflag. destruct flag as [f|]; [rewrite Hcond|]; rewrite Hall;
    split; reflexivity.
Qed.

Lemma event_flags_full_listing_witness :
  http_get_event_flags world_two_flags fresh
  = (inr (JObj [("SYS_POKEDEX_GET", JBool true);
                ("BADGE01_GET", JBool false)]), fresh)
  /\ get_event_flags world_two_flags fresh
     = (inr (prep_data
               (JObj [("SYS_POKEDEX_GET", JBool true);
                      ("BADGE01_GET", JBool false)]) "flags"), fresh).
Proof.
  apply (event_flags_full_listing world_two_flags
           (fun f => JBool (String.eqb f "SYS_POKEDEX_GET"))
           (Some "BADGE09_GET") fresh).
  - apply (bool_decide_unpack _). vm_compute. exact I.
  - intros f Hf. simpl in Hf.
    repeat (apply elem_of_cons in Hf as [->|Hf]; [reflexivity|]).
    apply elem_of_nil in Hf as [].
  - reflexivity.
  - right. apply (bool_decide_unpack _). vm_compute. exact I.
Defined.

(** X12 -- A request that names a flag of the table reads that flag
    only: the answer is the one-entry dict of that flag, or the
    exception that reading it raises; no other flag is read, so a flag
    elsewhere in the table that cannot be read does no harm. *)
Theorem event_flags_single_flag
  (w : World) (f : string) (s : Sys) :
  request_args_get_flag w = inr (Some f) ->
  f <> "" ->
  f ∈ event_flags w ->
  http_get_event_flags w s
  = (res_map (fun v => JObj [(f, v)]) (get_event_flag w f), s)
  /\ get_event_flags w s
     = (res_map (fun v => prep_data (JObj [(f, v)]) "flags")
          (get_event_flag w f), s).
Proof.
  intros Hflag Hne Hf.
  unfold http_get_event_flags, get_event_flags, bind, lift, ret.
  rewrite Hflag. simpl.
  destruct (String.eqb_spec f "") as [?|_]; [contradiction|]. simpl.
  rewrite (proj2 (existsb_eqb_elem f (event_flags w)) Hf).
  destruct (get_event_flag w f); split; reflexivity.
Qed.

Lemma event_flags_single_flag_witness :
  http_get_event_flags world_flag_named fresh
  = (inr (JObj [("BADGE01_GET", JBool false)]), fresh)
  /\ get_event_flags world_flag_named fresh
     = (inr (prep_data (JObj [("BADGE01_GET", JBool false)]) "flags"),
        fresh).
Proof.
  apply (event_flags_single_flag world_flag_named "BADGE01_GET" fresh).
  - reflexivity.
  - discriminate.
  - apply (bool_decide_unpack _). vm_compute. exact I.
Defined.

(** ** The trainer frame *)

Lemma dict_get_set_eq k v (d : dict) : dict_get k (dict_set k v d) = Some v.
Proof.
  induction d as [|[k' v'] d IH]; simpl.
  - rewrite String.eqb_refl. reflexivity.
  - destruct (String.eqb k k') eqn:E; simpl.
    + rewrite String.eqb_refl. reflexivity.
    + rewrite E. exact IH.
Qed.

Lemma dict_get_set_ne k k' v (d : dict) :
  k' <> k -> dict_get k' (dict_set k v d) = dict_get k' d.
Proof.
  intros Hne. induction d as [|[k0 v0] d IH]; simpl.
  - destruct (String.eqb_spec k' k) as [?|_]; [contradiction|reflexivity].
  - destruct (String.eqb_spec k k0) as [->|Hk]; simpl.
    + destruct (String.eqb_spec k' k0) as [?|_]; [contradiction|].
      reflexivity.
    + destruct (String.eqb k' k0); [reflexivity|exact IH].
Qed.

Lemma dict_set_length k v (d : dict) :
  length (dict_set k v d)
  = match dict_get k d with
    | Some _ => length d
    | None => S (length d)
    end.
Proof.
  induction d as [|[k' v'] d IH]; simpl; [reflexivity|].
  destruct (String.eqb k k'); simpl; [reflexivity|].
  rewrite IH. destruct (dict_get k d); reflexivity.
Qed.

(** X13 -- When the trainer and the game state can both be read, the
    trainer frame and the trainer pull response carry the dict of
    [trainer.to_dict()] with the key ["game_state"] set to the name of
    the current game state: that key is always there and wins over a
    key of the same name coming from the trainer, every other key keeps
    its value, and the dict grows by one entry exactly when the trainer
    had no such key. *)
Theorem trainer_frame_has_game_state
  (w : World) (d0 : dict) (name : string) :
  trainer_to_dict w = inr d0 ->
  get_game_state_name w = inr name ->
  exists d,
    outcome (get_trainer w) = inr (mkFrame "trainer" (JObj d))
    /\ outcome (http_get_trainer w) = inr (JObj d)
    /\ dict_get "game_state" d = Some (JStr name)
    /\ (forall k, k <> "game_state" -> dict_get k d = dict_get k d0)
    /\ length d
       = match dict_get "game_state" d0 with
         | Some _ => length d0
         | None => S (length d0)
         end.
Proof.
  intros Ht Hg. exists (dict_set "game_state" (JStr name) d0).
  split; [|split; [|split; [|split]]].
  - unfold outcome, get_trainer, bind, lift, ret. rewrite Ht, Hg.
    reflexivity.
  - unfold outcome, http_get_trainer, bind, lift, ret. rewrite Ht, Hg.
    reflexivity.
  - apply dict_get_set_eq.
  - intros k Hk. apply dict_get_set_ne, Hk.
  - apply dict_set_length.
Qed.

Lemma trainer_frame_has_game_state_witness :
  exists d,
    outcome (get_trainer world_trainer_with_state)
    = inr (mkFrame "trainer" (JObj d))
    /\ outcome (http_get_trainer world_trainer_with_state) = inr (JObj d)
    /\ dict_get "game_state" d = Some (JStr "OVERWORLD")
    /\ (forall k, k <> "game_state" ->
          dict_get k d
          = dict_get k [("name", JStr "Red"); ("game_state", JStr "stale");
                        ("id", JNum 7)])
    /\ length d = 3.
Proof.
  exact (trainer_frame_has_game_state world_trainer_with_state
           [("name", JStr "Red"); ("game_state", JStr "stale");
            ("id", JNum 7)] "OVERWORLD" eq_refl eq_refl).
Defined.

(** ** Names of invalidations and names of commands *)

Lemma update_producer_is_command type p :
  update_producer type = Some p ->
  lower type = type /\ command_producer type = Some p.
Proof.
  unfold update_producer, update_producers, case_of. simpl.
  repeat match goal with
         | |- context [String.eqb type ?name] =>
             destruct (String.eqb_spec type name) as [->|_]; simpl;
             [intros [= <-]; split; reflexivity|]
         end.
  discriminate.
Qed.

(** X14 -- Every name that [add_update] recognises is also a command of
    the read loop, served by the same producer: in one and the same
    world, the frame that an invalidation queues under a name is the
    frame with which the read loop answers that name. *)
Theorem queued_frame_is_command_reply
  (w : World) (type : string) (f : Frame) :
  snapshot w type = inr (Some f) ->
  command_reply w type = inr f.
Proof.
  unfold snapshot, command_reply.
  destruct (update_producer type) as [p|] eqn:Hp; [|discriminate].
  destruct (update_producer_is_command type p Hp) as [-> ->].
  destruct (outcome (p w)); [discriminate|].
  intros [= <-]. reflexivity.
Qed.

Lemma queued_frame_is_command_reply_witness :
  command_reply calm_world "shiny" = inr (mkFrame "shiny_log" (JArr [])).
Proof.
  apply (queued_frame_is_command_reply calm_world "shiny"). reflexivity.
Defined.

Lemma update_producer_type w type p f :
  update_producer type = Some p ->
  outcome (p w) = inr f ->
  ftype f
  = if String.eqb type "shiny" then "shiny_log"
    else if String.eqb type "event_flags" then "flags"
    else type.
Proof.
  unfold update_producer, update_producers, case_of. simpl.
  repeat match goal with
         | |- context [String.eqb type ?name] =>
             destruct (String.eqb_spec type name) as [->|_]; simpl;
             [intros [= <-]; revert f; crush_producers;
              intros f0 [= <-]; reflexivity|]
         end.
  discriminate.
Qed.

(** X15 -- [add_update] is all or nothing and only appends: for every
    name it either raises and leaves the whole state as it was, or
    returns normally having added exactly one entry behind the queued
    ones, without touching registry or wire. The entry is [None] only
    for a name outside the recognised set; otherwise it is a frame whose
    type is the name of the invalidation, except that ["shiny"] queues a
    frame of type ["shiny_log"] and ["event_flags"] one of type
    ["flags"]. *)
Theorem add_update_appends_one_typed_entry
  (w : World) (type : string) (s : Sys) :
  (exists e, add_update w type s = (inl e, s))
  \/ (exists entry,
        add_update w type s
        = (inr tt,
           set_updates (updates (websocket_handler s) ++ [entry]) s)
        /\ match entry with
           | Some f =>
               ftype f
               = if String.eqb type "shiny" then "shiny_log"
                 else if String.eqb type "event_flags" then "flags"
                 else type
           | None => type ∉ recognised_updates
           end).
Proof.
  rewrite add_update_eq. unfold snapshot.
  destruct (update_producer type) as [p|] eqn:Hp.
  - destruct (outcome (p w)) as [e|f] eqn:Hf.
    + left. exists e. reflexivity.
    + right. exists (Some f). split; [reflexivity|].
      apply (update_producer_type w type p f Hp Hf).
  - right. exists None. split; [reflexivity|].
    intros Hin. revert Hp. unfold recognised_updates in Hin. simpl in Hin.
    repeat (apply elem_of_cons in Hin as [->|Hin]; [discriminate|]).
    apply elem_of_nil in Hin as [].
Qed.

Lemma add_update_appends_one_typed_entry_witness :
  (exists e, add_update calm_world "shiny" three_clients
             = (inl e, three_clients))
  \/ (exists entry,
        add_update calm_world "shiny" three_clients
        = (inr tt,
           set_updates
             (updates (websocket_handler three_clients) ++ [entry])
             three_clients)
        /\ match entry with
           | Some f => ftype f = "shiny_log"
           | None => "shiny" ∉ recognised_updates
           end).
Proof.
  exact (add_update_appends_one_typed_entry calm_world "shiny"
           three_clients).
Defined.

(** ** The route listing *)

Lemma dict_set_set k v v' (d : dict) :
  dict_set k v' (dict_set k v d) = dict_set k v' d.
Proof.
  induction d as [|[k0 v0] d IH]; simpl.
  - rewrite String.eqb_refl. reflexivity.
  - destruct (String.eqb k k0) eqn:E; simpl.
    + rewrite String.eqb_refl. reflexivity.
    + rewrite E, IH. reflexivity.
Qed.

Lemma dict_set_in_set k k2 v inner (d : dict) :
  dict_set_in k k2 v (dict_set k (JObj inner) d)
  = inr (dict_set k (JObj (dict_set k2 v inner)) d).
Proof.
  unfold dict_set_in. rewrite dict_get_set_eq, dict_set_set. reflexivity.
Qed.

Lemma collect_routes_all (rules : list Rule) :
  forall acc : dict,
    NoDup (map rule rules) ->
    (forall r, r ∈ rules -> rule r ∉ map fst acc) ->
    collect_routes rules acc = inr (acc ++ map route_entry rules).
Proof.
  induction rules as [|r rules IH]; intros acc Hnd Hacc; simpl.
  - rewrite app_nil_r. reflexivity.
  - apply NoDup_cons in Hnd as [Hr Hnd].
    rewrite dict_set_in_set. simpl. rewrite dict_set_in_set. simpl.
    rewrite dict_set_fresh
      by (apply Hacc, elem_of_cons; left; reflexivity).
    rewrite IH.
    + rewrite <- app_assoc. reflexivity.
    + exact Hnd.
    + intros r' Hr'. rewrite map_app, elem_of_app. simpl.
      intros [Hin|Hin].
      * apply (Hacc r'); [apply elem_of_cons; right; exact Hr'|exact Hin].
      * apply list_elem_of_singleton in Hin. apply Hr. rewrite <- Hin.
        apply list_elem_of_fmap_2. exact Hr'.
Qed.

Lemma listed_rules_cons r (rules : list Rule) :
  listed_rules (r :: rules)
  = if String.eqb static_rule (rule r) then listed_rules rules
    else r :: listed_rules rules.
Proof.
  unfold listed_rules. cbn [List.filter].
  destruct (String.eqb static_rule (rule r)); reflexivity.
Qed.

Lemma listed_rules_no_static (rules : list Rule) :
  static_rule ∉ map rule rules -> listed_rules rules = rules.
Proof.
  induction rules as [|r rules IH]; intros Hs; [reflexivity|].
  rewrite listed_rules_cons.
  apply not_elem_of_cons in Hs as [Hne Hs].
  destruct (String.eqb_spec static_rule (rule r)) as [?|_];
    [contradiction|].
  rewrite IH by exact Hs. reflexivity.
Qed.

Lemma dict_pop_route_entries (rules : list Rule) :
  NoDup (map rule rules) ->
  dict_pop static_rule (map route_entry rules)
  = if bool_decide (static_rule ∈ map rule rules)
    then res_map (fun v => (v, map route_entry (listed_rules rules)))
           (match dict_get static_rule (map route_entry rules) with
            | Some v => inr v
            | None => inl KeyError
            end)
    else inl KeyError.
Proof.
  induction rules as [|r rules IH]; intros Hnd; [reflexivity|].
  apply NoDup_cons in Hnd as [Hr Hnd].
  rewrite listed_rules_cons.
  cbn [map route_entry dict_pop dict_get fst snd].
  destruct (String.eqb_spec static_rule (rule r)) as [Heq|Hne].
  - rewrite bool_decide_true
      by (rewrite Heq; apply elem_of_cons; left; reflexivity).
    rewrite listed_rules_no_static by (rewrite Heq; exact Hr).
    reflexivity.
  - rewrite IH by exact Hnd.
    destruct (bool_decide (static_rule ∈ map rule rules)) eqn:E.
    + apply bool_decide_eq_true in E.
      rewrite bool_decide_true by (apply elem_of_cons; right; exact E).
      destruct (dict_get static_rule (map route_entry rules));
        reflexivity.
    + apply bool_decide_eq_false in E.
      rewrite bool_decide_false; [reflexivity|].
      intros [?|?]%elem_of_cons; contradiction.
Qed.

Lemma dict_get_route_entries (rules : list Rule) :
  static_rule ∈ map rule rules ->
  exists v, dict_get static_rule (map route_entry rules) = Some v.
Proof.
  induction rules as [|r rules IH]; intros Hs.
  - apply elem_of_nil in Hs as [].
  - cbn [map route_entry dict_get fst] in *.
    destruct (String.eqb_spec static_rule (rule r)) as [_|Hne].
    + eexists. reflexivity.
    + apply elem_of_cons in Hs as [?|Hs]; [contradiction|].
      apply IH, Hs.
Qed.

Lemma http_get_routes_eq (rules : list Rule) (s : Sys) :
  NoDup (map rule rules) ->
  http_get_routes rules s
  = if bool_decide (static_rule ∈ map rule rules)
    then (inr (list_to_map (map route_entry (listed_rules rules))), s)
    else (inl KeyError, s).
Proof.
  intros Hnd. unfold http_get_routes, bind, lift, ret.
  rewrite (collect_routes_all rules [] Hnd)
    by (intros r _ H; apply elem_of_nil in H as []).
  simpl. rewrite dict_pop_route_entries by exact Hnd.
  destruct (bool_decide (static_rule ∈ map rule rules)) eqn:E;
    [|reflexivity].
  apply bool_decide_eq_true in E.
  destruct (dict_get_route_entries rules E) as (v & ->). reflexivity.
Qed.

Lemma route_entries_keys (rules : list Rule) :
  (map route_entry rules).*1 = map rule rules.
Proof.
  induction rules as [|r rules IH]; [reflexivity|].
  cbn [map fmap list_fmap route_entry fst]. f_equal. exact IH.
Qed.

Lemma listed_rules_elem r (rules : list Rule) :
  r ∈ listed_rules rules <-> r ∈ rules /\ rule r <> static_rule.
Proof.
  induction rules as [|r0 rules IH].
  - split; [intros H|intros [H _]]; apply elem_of_nil in H as [].
  - rewrite listed_rules_cons.
    destruct (String.eqb_spec static_rule (rule r0)) as [Heq|Hne].
    + rewrite IH, elem_of_cons. split; [tauto|].
      intros [[->|Hr] Hs]; [congruence|tauto].
    + rewrite !elem_of_cons, IH. split; [|tauto].
      intros [->|Hr]; [split; [tauto|congruence]|tauto].
Qed.

Lemma listed_rules_NoDup (rules : list Rule) :
  NoDup (map rule rules) -> NoDup (map rule (listed_rules rules)).
Proof.
  induction rules as [|r rules IH]; intros Hnd; [exact Hnd|].
  rewrite listed_rules_cons. cbn [map] in Hnd.
  apply NoDup_cons in Hnd as [Hr Hnd].
  destruct (String.eqb static_rule (rule r)); [apply IH, Hnd|].
  cbn [map]. apply NoDup_cons. split; [|apply IH, Hnd].
  intros Hin. apply Hr.
  apply list_elem_of_fmap in Hin as (r' & -> & Hr').
  apply listed_rules_elem in Hr' as [Hr' _].
  apply list_elem_of_fmap_2. exact Hr'.
Qed.

(** X16 -- For a [url_map] whose rules have distinct paths and one of
    which is the static file rule, the discovery endpoint answers with
    a JSON object that has, for every other rule, an entry under the
    path of the rule giving the name of its view function and its
    allowed methods, and that has no entry under the path of the static
    rule nor under any path that is not in the map. If the map had no
    static rule, [routes.pop] would raise [KeyError] instead. Nothing is
    said about the order of the keys in the response. *)
Theorem http_get_routes_lists_rules (rules : list Rule) (s : Sys) :
  NoDup (map rule rules) ->
  (static_rule ∉ map rule rules ->
   http_get_routes rules s = (inl KeyError, s))
  /\ (static_rule ∈ map rule rules ->
      exists answer : gmap string json,
        http_get_routes rules s = (inr answer, s)
        /\ answer !! static_rule = None
        /\ (forall r, r ∈ rules -> rule r <> static_rule ->
              answer !! rule r = Some (snd (route_entry r)))
        /\ (forall path, path ∉ map rule rules -> answer !! path = None)).
Proof.
  intros Hnd. rewrite http_get_routes_eq by exact Hnd. split.
  - intros Hs. rewrite bool_decide_false by exact Hs. reflexivity.
  - intros Hs. rewrite bool_decide_true by exact Hs.
    eexists. split; [reflexivity|]. split; [|split].
    + apply not_elem_of_list_to_map_1. rewrite route_entries_keys.
      intros Hin. apply list_elem_of_fmap in Hin as (r & Heq & Hr).
      apply listed_rules_elem in Hr as [_ Hne]. congruence.
    + intros r Hr Hne. apply elem_of_list_to_map_1.
      * rewrite route_entries_keys. apply listed_rules_NoDup, Hnd.
      * change (rule r, snd (route_entry r)) with (route_entry r).
        apply list_elem_of_fmap_2, listed_rules_elem. tauto.
    + intros path Hpath. apply not_elem_of_list_to_map_1.
      rewrite route_entries_keys.
      intros Hin. apply list_elem_of_fmap in Hin as (r & -> & Hr).
      apply listed_rules_elem in Hr as [Hr _].
      apply Hpath, list_elem_of_fmap_2, Hr.
Qed.

Lemma http_get_routes_lists_rules_witness :
  http_get_routes (tail sample_rules) fresh = (inl KeyError, fresh)
  /\ exists answer : gmap string json,
       http_get_routes sample_rules fresh = (inr answer, fresh)
       /\ answer !! "/static/<path:filename>" = None
       /\ answer !! "/trainer"
          = Some (JObj [("functionName", JStr "http_get_trainer");
                        ("methods",
                         JArr [JStr "GET"; JStr "HEAD"; JStr "OPTIONS"])])
       /\ answer !! "/party" = None.
Proof.
  split.
  - apply (http_get_routes_lists_rules (tail sample_rules) fresh).
    + apply (bool_decide_unpack _). vm_compute. exact I.
    + apply (bool_decide_unpack _). vm_compute. exact I.
  - destruct (http_get_routes_lists_rules sample_rules fresh) as [_ H].
    + apply (bool_decide_unpack _). vm_compute. exact I.
    + destruct H as (answer & Hrun & Hstatic & Hrule & Hnone).
      * apply (bool_decide_unpack _). vm_compute. exact I.
      * exists answer. split; [exact Hrun|]. split; [exact Hstatic|].
        split.
        -- apply (Hrule (mkRule "/trainer" "http_get_trainer"
                           ["GET"; "HEAD"; "OPTIONS"])).
           ++ unfold sample_rules. apply elem_of_cons. right.
              apply elem_of_cons. left. reflexivity.
           ++ discriminate.
        -- apply Hnone. apply (bool_decide_unpack _). vm_compute. exact I.
Defined.

(** ** After the read loop has ended *)

(** X17 -- Once the read loop of a connection has ended, for whatever
    reason (the peer closed, a command was unknown, a producer or a
    write failed), that client receives nothing from any later
    broadcast tick, whatever is queued and whatever the sockets do: what
    it has received stays what it had received when the loop ended. *)
Theorem no_broadcast_after_read_loop
  (w w' : World) (c : client) (inbound : list string) (closing : exn)
  (s : Sys) :
  let s1 := snd (consumer_handler w c inbound closing s) in
  received c (wire (snd (producer_tick w' s1))) = received c (wire s1).
Proof.
  intros s1.
  assert (c ∉ clients (websocket_handler s1)) as Hc.
  { unfold s1. rewrite consumer_handler_eq. simpl.
    apply not_elem_of_removed. }
  destruct (producer_tick_received_prefix w' s1) as (tr & -> & Hpre).
  specialize (Hpre c). rewrite decide_False in Hpre by exact Hc.
  apply prefix_nil_inv in Hpre. simpl.
  rewrite received_app, Hpre. apply app_nil_r.
Qed.

(** ** A registry that changes under the broadcast loop *)

Lemma run_event_updates w ev s :
  updates (websocket_handler (run_event w ev s))
  = updates (websocket_handler s).
Proof.
  destruct ev as [c|c received]; simpl; [reflexivity|].
  destruct (decide (c ∈ clients (websocket_handler s))) as [Hin|Hin];
    [|reflexivity].
  unfold bind, lift. destruct received as [e|command].
  - rewrite remove_client_present by exact Hin. reflexivity.
  - pose proof (consumer_step_handler w c command s) as Hstep.
    destruct (consumer_step w c command s) as [[e|[]] s1]; simpl in Hstep.
    + destruct (decide (c ∈ clients (websocket_handler s1))) as [Hc|Hc].
      * rewrite remove_client_present by exact Hc. simpl.
        rewrite Hstep. reflexivity.
      * rewrite remove_client_absent by exact Hc. simpl.
        rewrite Hstep. reflexivity.
    + simpl. rewrite Hstep. reflexivity.
Qed.

Lemma run_events_updates w (evs : list event) :
  forall s,
    updates (websocket_handler (run_events w evs s))
    = updates (websocket_handler s).
Proof.
  unfold run_events. induction evs as [|ev evs IH]; intros s; simpl.
  - reflexivity.
  - rewrite IH. apply run_event_updates.
Qed.

Lemma set_iter_updates w m si (rest : list client) :
  forall sched s,
    updates (websocket_handler (snd (set_iter w m si rest sched s)))
    = updates (websocket_handler s).
Proof.
  induction rest as [|c rest IH]; intros sched s; simpl.
  - destruct (negb _); reflexivity.
  - destruct (negb _); [reflexivity|].
    destruct (decide (c ∈ clients (websocket_handler s))); [|apply IH].
    pose proof (send_handler w c m
                  (run_events w (before_write (hd quiet_point sched)) s))
      as Hsend.
    destruct (send w c m _) as [[x|[]] s1]; simpl in *.
    + rewrite Hsend. apply run_events_updates.
    + rewrite IH, run_events_updates, Hsend. apply run_events_updates.
Qed.

Lemma producer_loop_updates w (messages : list entry) :
  forall sched s,
    updates (websocket_handler (snd (producer_loop w sched messages s)))
    = updates (websocket_handler s).
Proof.
  induction messages as [|m messages IH] using rev_ind; intros sched s.
  - rewrite producer_loop_nil. reflexivity.
  - rewrite producer_loop_snoc. unfold bind.
    assert (updates (websocket_handler (snd (fan_out_live w m sched s)))
            = updates (websocket_handler s)) as Hfan.
    { destruct m as [f|]; simpl; [|reflexivity].
      unfold bind, get_clients, get_sys, ret. simpl.
      apply set_iter_updates. }
    destruct (fan_out_live w m sched s) as [[x|sched1] s1]; simpl in *.
    + exact Hfan.
    + rewrite IH. exact Hfan.
Qed.

(** X18 -- The broadcast loop iterates over the live client set. A tick
    that returns normally has ended every one of its fan-outs with as
    many registered clients as it started with; so when other tasks
    leave the registry with another size while the tick is suspended at
    a write (a client connects, or the read loop of a client ends), and
    no write fails with anything but [ConnectionClosed], the tick is
    aborted with [RuntimeError]. In every case, aborted or not, the
    queue is empty afterwards: drained frames that were not written are
    lost. *)
Theorem registry_change_aborts_tick
  (w : World) (sched : schedule) (s : Sys) :
  let r := producer_tick_live w sched s in
  (fst r = inr tt ->
   size (clients (websocket_handler (snd r)))
   = size (clients (websocket_handler s)))
  /\ ((forall c m, absorbed (websocket_send w c m) = true) ->
      size (clients (websocket_handler (snd r)))
      <> size (clients (websocket_handler s)) ->
      fst r = inl RuntimeError)
  /\ updates (websocket_handler (snd r)) = [].
Proof.
  intros r. unfold r. split; [apply producer_tick_live_size|]. split.
  - intros Habs Hsize.
    destruct (fst (producer_tick_live w sched s)) as [e|[]] eqn:Hr.
    + rewrite (producer_tick_live_error w sched s e Habs Hr). reflexivity.
    + exfalso. apply Hsize, producer_tick_live_size, Hr.
  - unfold producer_tick_live, bind. rewrite get_updates_spec.
    apply producer_loop_updates.
Qed.

(** The connection of client 2 is closed; its read loop notices while
    the tick is suspended at its first write. *)
Lemma registry_change_aborts_tick_witness :
  let r := producer_tick_live world_2_closed
             [mkAwait [] [Inbound 2 (inl ConnectionClosed)]]
             three_clients in
  fst r = inl RuntimeError
  /\ updates (websocket_handler (snd r)) = [].
Proof.
  destruct (registry_change_aborts_tick world_2_closed
              [mkAwait [] [Inbound 2 (inl ConnectionClosed)]]
              three_clients) as (_ & Habort & Hq).
  split; [|exact Hq]. apply Habort.
  - intros c m. simpl. destruct (Nat.eqb c 2); reflexivity.
  - vm_compute. discriminate.
Defined.

(** In that run at most one client has got the first frame and nobody
    the second, although the sockets of clients 1 and 3 work. *)
Example closing_client_aborts_tick :
  let s' := snd (producer_tick_live world_2_closed
                   [mkAwait [] [Inbound 2 (inl ConnectionClosed)]]
                   three_clients) in
  length (received 1 (wire s')) + length (received 3 (wire s')) <= 1
  /\ elements (clients (websocket_handler s'))
     = elements ({[1; 3]} : gset client).
Proof. vm_compute. split; [lia|reflexivity]. Qed.

(** ** The read loop, turn by turn *)

Lemma run_events_cons w ev (evs : list event) s :
  run_events w (ev :: evs) s = run_events w evs (run_event w ev s).
Proof. reflexivity. Qed.

Lemma run_events_gone w c (turns : list (res string)) :
  forall s,
    c ∉ clients (websocket_handler s) ->
    run_events w (map (Inbound c) turns) s = s.
Proof.
  induction turns as [|t turns IH]; intros s Hc; [reflexivity|].
  cbn [map]. rewrite run_events_cons.
  unfold run_event at 1. rewrite decide_False by exact Hc.
  apply IH, Hc.
Qed.

Lemma run_turns w c (inbound : list string) closing :
  forall s,
    c ∈ clients (websocket_handler s) ->
    run_events w (map (Inbound c) (map inr inbound ++ [inl closing])) s
    = add_wire (answer_writes w c inbound)
        (set_clients (clients (websocket_handler s) ∖ {[c]}) s).
Proof.
  unfold answer_writes.
  induction inbound as [|command inbound IH]; intros s Hc.
  - simpl. unfold run_events. simpl. rewrite decide_True by exact Hc.
    unfold bind, lift. rewrite remove_client_present by exact Hc.
    simpl. rewrite add_wire_nil. reflexivity.
  - cbn [map app]. rewrite run_events_cons.
    unfold run_event at 1. rewrite decide_True by exact Hc.
    unfold bind, lift. rewrite consumer_step_eq.
    cbn [answers]. unfold accepts.
    destruct (command_reply w command) as [e|f].
    + rewrite remove_client_present by exact Hc. simpl.
      rewrite add_wire_nil.
      apply run_events_gone. simpl. apply not_elem_of_removed.
    + destruct (websocket_send w c (Some f)) as [e|[]].
      * rewrite remove_client_present by exact Hc. simpl.
        rewrite add_wire_nil.
        apply run_events_gone. simpl. apply not_elem_of_removed.
      * rewrite IH by exact Hc. unfold add_wire, log_write, set_clients.
        simpl. rewrite <- app_assoc. reflexivity.
Qed.

(** X19 -- Taken turn by turn between the steps of other tasks
    (register; one turn of the loop for each thing [recv()] returns;
    the turn in which [recv()] raises), the read loop of a connection
    leaves the hub in the same state as [consumer_handler] run in one
    go: the replies up to the first failing turn are on the wire, the
    client is unregistered, and turns after the failing one have no
    effect. *)
Theorem read_loop_turn_by_turn
  (w : World) (c : client) (inbound : list string) (closing : exn)
  (s : Sys) :
  run_events w
    (Connect c :: map (Inbound c) (map inr inbound ++ [inl closing])) s
  = snd (consumer_handler w c inbound closing s).
Proof.
  rewrite run_events_cons, consumer_handler_eq. simpl.
  rewrite run_turns
    by (simpl; apply elem_of_union_l, elem_of_singleton_2; reflexivity).
  reflexivity.
Qed.
